(** * Nano Exhibition Manager: the store of [App.jsx]

    A shallow embedding of the non-presentational part of
    [src/App.jsx]: the bundled sample data, the generic CRUD helpers
    [addItem], [updateItem] and [removeItem], the four filtered views,
    the CSV text built by [exportCSV], the id generator [uid], and the
    persistence pair [saveToStorage] / [loadFromStorage] together with a
    model of the platform's [JSON.stringify] and [JSON.parse].

    Conventions.
    - A JavaScript string is a Rocq [string]; its characters stand for the
      code units U+0000 to U+00FF.
    - A record (a flat JS object whose fields are strings) is a finite map
      [gmap string string] of the fields it holds itself; reading an absent
      field under one of the fixed names the code uses ([id], [name],
      [notes], ...) gives [None], which is JavaScript's [undefined]. The one
      read under a name the caller chooses, [row[c.key]] in [exportCSV],
      goes on to the prototype of the record and is modelled by [get].
    - The aggregate is a finite map from collection names to lists of
      records, as the code indexes it dynamically with [d[collection]]; a
      name the aggregate does not hold gives nothing the helpers can
      iterate or map, inherited or not, so that they throw.
    - A thrown exception is an explicit result: [None] for the CRUD
      helpers (the only throw is the [TypeError] of spreading or mapping
      [undefined]), [Throw] in the persistence layer. *)

From Stdlib Require Import Ascii String NArith.
From stdpp Require Import gmap strings list fin_maps pretty.

Set Warnings "-register-all".

Abbreviation item := (gmap string string).
Abbreviation aggregate := (gmap string (list (gmap string string))).

(** ** Sample data (App.jsx, lines 14-29) *)

Definition ex_1 : item :=
  list_to_map [("id", "ex-1"); ("name", "NanoTech Lab");
               ("contact", "info@nanotech.example"); ("booth", "A1");
               ("notes", "Graphene demos")].
Definition ex_2 : item :=
  list_to_map [("id", "ex-2"); ("name", "Micro Instruments");
               ("contact", "sales@micro.example"); ("booth", "B2");
               ("notes", "AFM & SEM")].
Definition b_A1 : item :=
  list_to_map [("id", "b-A1"); ("code", "A1"); ("size", "3x3");
               ("notes", "Near entrance")].
Definition b_B2 : item :=
  list_to_map [("id", "b-B2"); ("code", "B2"); ("size", "3x2");
               ("notes", "Corner")].
Definition ev_1 : item :=
  list_to_map [("id", "ev-1"); ("title", "Opening Ceremony");
               ("start", "2025-11-12T10:00"); ("end", "2025-11-12T10:30");
               ("location", "Main Hall"); ("speaker", "Dr. A")].
Definition at_1 : item :=
  list_to_map [("id", "at-1"); ("name", "Ali Reza");
               ("company", "NanoTech Lab"); ("type", "Visitor");
               ("email", "ali@example.com")].

Definition sampleData : aggregate :=
  list_to_map
    [ ("exhibitors", [ex_1; ex_2]);
      ("booths", [b_A1; b_B2]);
      ("events", [ev_1]);
      ("attendees", [at_1]) ].

(** The four collection names the views use. *)
Definition collections : list string :=
  ["exhibitors"; "booths"; "events"; "attendees"].

(** ** Generic CRUD helpers (App.jsx, lines 85-96)

    Each helper is the updater function it hands to [setData]. *)

(** [it.id === id] *)
Definition has_id (id : string) (it : item) : Prop := it !! "id" = Some id.

Global Instance has_id_dec id it : Decision (has_id id it).
Proof. unfold has_id. apply _. Defined.

(** [{ ...d, [collection]: [...d[collection], item] }] *)
Definition addItem (collection : string) (it : item) (d : aggregate)
  : option aggregate :=
  l ← d !! collection;
  Some (<[collection := l ++ [it]]> d).

(** [{ ...it, ...patch }]: the fields of [patch] are written over [it]. *)
Definition spread (it patch : item) : item := patch ∪ it.

(** [{ ...d, [collection]: d[collection].map((it) =>
        it.id === id ? { ...it, ...patch } : it) }] *)
Definition updateItem (collection id : string) (patch : item) (d : aggregate)
  : option aggregate :=
  l ← d !! collection;
  Some (<[collection :=
            (λ it, if decide (has_id id it) then spread it patch else it) <$> l]> d).

(** [{ ...d, [collection]: d[collection].filter((it) => it.id !== id) }] *)
Definition removeItem (collection id : string) (d : aggregate)
  : option aggregate :=
  l ← d !! collection;
  Some (<[collection := filter (λ it, ¬ has_id id it) l]> d).

(** Number of records of a list that carry the given id. *)
Definition count_id (id : string) (l : list item) : nat :=
  length (filter (has_id id) l).

(** ** String primitives of the platform

    [toLowerCase], [includes], [join], [slice] and the global replacement of
    the quote character are built-ins; they are modelled on 8-bit code
    units. *)

(** Lower-case mapping of one code unit of the range U+0000 to U+00FF:
    A-Z, and the Latin-1 capitals U+00C0 to U+00DE except the
    multiplication sign U+00D7, move up by 32. On this range the built-in
    works unit by unit; the mappings that depend on the neighbours of a
    character or change the length of the text (the final sigma, U+0130)
    concern characters outside it and are not modelled. *)
Definition lower_unit (c : ascii) : ascii :=
  let n := N_of_ascii c in
  if ((65 <=? n) && (n <=? 90) || (192 <=? n) && (n <=? 214)
      || (216 <=? n) && (n <=? 222))%N
  then ascii_of_N (n + 32) else c.

(** [s.toLowerCase()] *)
Fixpoint toLowerCase (s : string) : string :=
  match s with
  | EmptyString => EmptyString
  | String c s' => String (lower_unit c) (toLowerCase s')
  end.

(** [s.includes(t)]: [t] occurs in [s] at some position. *)
Fixpoint includes (s t : string) : bool :=
  String.prefix t s ||
  match s with
  | EmptyString => false
  | String _ s' => includes s' t
  end.

(** [arr.join(sep)] on an array of strings. *)
Definition join (sep : string) (arr : list string) : string :=
  String.concat sep arr.

(** How [join] and the template [v ?? EmptyString] read a field: an
    [undefined] field is the empty string. *)
Definition text_of (v : option string) : string := default EmptyString v.

(** [s.slice(a, b)] for [0 <= a <= b]. *)
Definition slice (a b : nat) (s : string) : string :=
  String.substring a (b - a) s.

(** The quote character U+0022 and the reverse solidus U+005C. *)
Definition dquote : ascii := ascii_of_nat 34.
Definition backslash : ascii := ascii_of_nat 92.

(** [s.replace(/QUOTE/g, QUOTE QUOTE)]: every quote character is doubled. *)
Fixpoint double_quotes (s : string) : string :=
  match s with
  | EmptyString => EmptyString
  | String c s' =>
      if decide (c = dquote) then String dquote (String dquote (double_quotes s'))
      else String c (double_quotes s')
  end.

(** Template literal that wraps a text in quote characters. *)
Definition quoted (s : string) : string :=
  String dquote (s +:+ String dquote EmptyString).

(** ** Identifier generation (App.jsx, lines 31-33)

    [rnd] is the text of [Math.random().toString(36)], which the platform
    draws; [uid] keeps its characters 2 to 8. *)
Definition uid (prefix rnd : string) : string :=
  prefix +:+ "-" +:+ slice 2 9 rnd.

(** ** Record creation (the four [submit] handlers)

    [{ id: uid(prefix), ...form }] followed by [addItem]. *)
Definition newItem (prefix rnd : string) (form : item) : item :=
  spread {[ "id" := uid prefix rnd ]} form.

Definition submitExhibitor (rnd : string) (form : item) (d : aggregate) :=
  addItem "exhibitors" (newItem "ex" rnd form) d.
Definition submitBooth (rnd : string) (form : item) (d : aggregate) :=
  addItem "booths" (newItem "b" rnd form) d.
Definition submitEvent (rnd : string) (form : item) (d : aggregate) :=
  addItem "events" (newItem "ev" rnd form) d.
Definition submitAttendee (rnd : string) (form : item) (d : aggregate) :=
  addItem "attendees" (newItem "at" rnd form) d.

(** ** Filtered views (App.jsx, lines 99-104) *)

(** [[it.f1, ..., it.fn].join(SPACE).toLowerCase().includes(q.toLowerCase())] *)
Definition matches (fields : list string) (q : string) (it : item) : bool :=
  includes (toLowerCase (join " " ((λ f, text_of (it !! f)) <$> fields)))
           (toLowerCase q).

Definition filteredExhibitors (q : string) (data : aggregate) : option (list item) :=
  l ← data !! "exhibitors";
  Some (filter (λ e, matches ["name"; "contact"; "booth"; "notes"] q e) l).
Definition filteredBooths (q : string) (data : aggregate) : option (list item) :=
  l ← data !! "booths";
  Some (filter (λ b, matches ["code"; "size"; "notes"] q b) l).
Definition filteredEvents (q : string) (data : aggregate) : option (list item) :=
  l ← data !! "events";
  Some (filter (λ ev, matches ["title"; "location"; "speaker"] q ev) l).
Definition filteredAttendees (q : string) (data : aggregate) : option (list item) :=
  l ← data !! "attendees";
  Some (filter (λ a, matches ["name"; "company"; "email"; "type"] q a) l).

(** The view of a collection, by its name. *)
Definition filtered (collection q : string) (data : aggregate) : option (list item) :=
  if decide (collection = "exhibitors") then filteredExhibitors q data
  else if decide (collection = "booths") then filteredBooths q data
  else if decide (collection = "events") then filteredEvents q data
  else if decide (collection = "attendees") then filteredAttendees q data
  else None.

(** ** Property reads that reach the prototype (App.jsx, line 56)

    [exportCSV] reads a record with [row[c.key]], where the key is whatever
    the caller passes. Unlike the fixed fields [it.id], [e.name] and the
    like, such a key may name a property the record does not hold itself
    but inherits. The records of the program are made by object literals,
    by spreading and by [JSON.parse], so that their prototype is
    [Object.prototype], which the program leaves as ECMA-262 (sections
    20.1.3 and B.2.2, the latter for browsers) defines it: eleven built-in
    functions and the accessor [__proto__], whose getter answers the
    prototype of the record, [Object.prototype] itself. *)

Definition object_prototype_functions : list string :=
  ["constructor"; "hasOwnProperty"; "isPrototypeOf"; "propertyIsEnumerable";
   "toLocaleString"; "toString"; "valueOf";
   "__defineGetter__"; "__defineSetter__"; "__lookupGetter__"; "__lookupSetter__"].

(** What a read of a record can give: a string held by the record, the
    built-in function [Object.prototype] holds under a key, or
    [Object.prototype]. *)
Inductive value :=
  | VString (s : string)
  | VFunction (k : string)
  | VObjectPrototype.

(** [Object.prototype[k]] read on behalf of a record; [None] is
    [undefined]. *)
Definition Object_prototype (k : string) : option value :=
  if decide (k = "__proto__") then Some VObjectPrototype
  else if decide (k ∈ object_prototype_functions) then Some (VFunction k)
  else None.

(** [row[k]]: the field of the record if it holds one, otherwise what its
    prototype holds. *)
Definition get (row : item) (k : string) : option value :=
  match row !! k with
  | Some s => Some (VString s)
  | None => Object_prototype k
  end.

(** [String(v)]. The text of a built-in function is left to the platform
    by ECMA-262 (section 20.2.3.5): [native k] is the text it prints for
    the function under key [k]. [Object.prototype] is printed by its own
    [toString]. *)
Definition ToString (native : string → string) (v : value) : string :=
  match v with
  | VString s => s
  | VFunction k => native k
  | VObjectPrototype => "[object Object]"
  end.

(** ** CSV export (App.jsx, lines 50-70) *)

Record column := Column { key : string; label : string }.

(** The text [csv] that [exportCSV] hands to the download. *)
Definition csv_header (columns : list column) : string :=
  join "," ((λ c, quoted (label c)) <$> columns).

Definition csv_row (native : string → string) (columns : list column) (row : item)
  : string :=
  join ","
    ((λ c, let v := default (VString EmptyString) (get row (key c)) in
           quoted (double_quotes (ToString native v))) <$> columns).

Definition csv_text (native : string → string) (array : list item)
    (columns : list column) : string :=
  let header := csv_header columns in
  let rows :=
    join (String (ascii_of_nat 10) EmptyString) (csv_row native columns <$> array) in
  header +:+ String (ascii_of_nat 10) EmptyString +:+ rows.

(** The download [exportCSV] triggers: a file name built from [Date.now()]
    and the CSV text as the body of the blob. *)
Record download := Download { file_name : string; mime : string; body : string }.

Definition exportCSV (native : string → string) (now : N) (array : list item)
    (columns : list column) : download :=
  {| file_name := "export_" +:+ pretty now +:+ ".csv";
     mime := "text/csv;charset=utf-8;";
     body := csv_text native array columns |}.

(** The column descriptors of the two export buttons (App.jsx, lines 336-337). *)
Definition exhibitor_columns : list column :=
  [Column "name" "Name"; Column "contact" "Contact";
   Column "booth" "Booth"; Column "notes" "Notes"].
Definition attendee_columns : list column :=
  [Column "name" "Name"; Column "company" "Company";
   Column "email" "Email"; Column "type" "Type"].

(** ** Results of the persistence layer

    [Ret] is a normal completion and [Throw] a thrown [SyntaxError], the
    only exception [JSON.parse] raises. The other two results mark the
    limits of the model, not behaviours of the program: [Beyond] is the
    answer for a text in which the parser meets an escape for a code unit
    above U+00FF, which the 8-bit strings here cannot hold, so that nothing
    is said about such a text; [NoFuel] is the recursion bound of the
    parser, which [JSON.parse] never reaches ([parse_never_out_of_fuel]). *)

Inductive outcome (A : Type) : Type :=
  | Ret (a : A)
  | Throw
  | Beyond
  | NoFuel.
Arguments Ret {A} a.
Arguments Throw {A}.
Arguments Beyond {A}.
Arguments NoFuel {A}.

(** Sequencing: every result other than [Ret] is passed on. *)
Global Instance outcome_ret : MRet outcome := @Ret.
Global Instance outcome_bind : MBind outcome := λ A B f m,
  match m with
  | Ret a => f a
  | Throw => Throw
  | Beyond => Beyond
  | NoFuel => NoFuel
  end.

(** [try { body } catch (e) { handler }]: only a thrown exception reaches
    the handler. *)
Definition try_catch {A} (body handler : outcome A) : outcome A :=
  match body with Throw => handler | _ => body end.

(** ** JSON values

    The values [JSON.parse] builds. An object is a finite map, so two
    objects with the same members are equal whatever the order of their
    keys. A number is kept as the literal that denotes it. *)
Inductive json :=
  | JNull
  | JBool (b : bool)
  | JNum (literal : string)
  | JStr (s : string)
  | JArr (elements : list json)
  | JObj (members : gmap string json).

(** ** The platform's JSON object

    [JSON.stringify] without replacer and indentation, and [JSON.parse]
    without reviver, after ECMA-262 (QuoteJSONString, SerializeJSONArray,
    SerializeJSONObject, and the JSON grammar of ECMA-404). *)
Module JSON.

(** Lower-case hexadecimal digit. *)
Definition hex_digit (n : N) : ascii :=
  if (n <? 10)%N then ascii_of_N (48 + n) else ascii_of_N (87 + n).

(** UnicodeEscape: reverse solidus, u, and four hexadecimal digits. *)
Definition UnicodeEscape (c : ascii) : string :=
  let n := N_of_ascii c in
  String backslash
    (String "u" (String "0" (String "0"
       (String (hex_digit (n / 16)) (String (hex_digit (n mod 16)) EmptyString))))).

(** QuoteJSONString, one code unit: the short escapes of the table, a
    UnicodeEscape for the other control characters, the unit itself
    otherwise. *)
Definition quote_unit (c : ascii) : string :=
  let n := N_of_ascii c in
  if (n =? 8)%N then String backslash "b"
  else if (n =? 9)%N then String backslash "t"
  else if (n =? 10)%N then String backslash "n"
  else if (n =? 12)%N then String backslash "f"
  else if (n =? 13)%N then String backslash "r"
  else if (n =? 34)%N then String backslash (String dquote EmptyString)
  else if (n =? 92)%N then String backslash (String backslash EmptyString)
  else if (n <? 32)%N then UnicodeEscape c
  else String c EmptyString.

Fixpoint quote_units (s : string) : string :=
  match s with
  | EmptyString => EmptyString
  | String c s' => quote_unit c +:+ quote_units s'
  end.

Definition QuoteJSONString (s : string) : string :=
  String dquote (quote_units s +:+ String dquote EmptyString).

(** SerializeJSONProperty. The members of an object are listed in the
    order the finite map enumerates them. *)
Fixpoint stringify (value : json) : string :=
  match value with
  | JNull => "null"
  | JBool true => "true"
  | JBool false => "false"
  | JNum literal => literal
  | JStr s => QuoteJSONString s
  | JArr elements => "[" +:+ join "," (stringify <$> elements) +:+ "]"
  | JObj members =>
      "{" +:+ join ","
                (map_fold (λ k v partial,
                             (QuoteJSONString k +:+ ":" +:+ stringify v) :: partial)
                          [] members) +:+ "}"
  end.

(** JSONWhiteSpace: tab, line feed, carriage return, space. *)
Definition is_ws (c : ascii) : bool :=
  let n := N_of_ascii c in
  ((n =? 9) || (n =? 10) || (n =? 13) || (n =? 32))%N.

Fixpoint skip_ws (s : string) : string :=
  match s with
  | EmptyString => EmptyString
  | String c s' => if is_ws c then skip_ws s' else s
  end.

Definition hex_value (c : ascii) : option N :=
  let n := N_of_ascii c in
  if ((48 <=? n) && (n <=? 57))%N then Some (n - 48)%N
  else if ((97 <=? n) && (n <=? 102))%N then Some (n - 87)%N
  else if ((65 <=? n) && (n <=? 70))%N then Some (n - 55)%N
  else None.

Definition hex4 (a b c d : ascii) : option N :=
  x ← hex_value a; y ← hex_value b; z ← hex_value c; w ← hex_value d;
  Some (((x * 16 + y) * 16 + z) * 16 + w)%N.

(** JSONEscapeCharacter: the eight single-character escapes. *)
Definition escape_value (e : ascii) : option ascii :=
  let n := N_of_ascii e in
  if (n =? 34)%N then Some dquote
  else if (n =? 92)%N then Some backslash
  else if (n =? 47)%N then Some (ascii_of_nat 47)
  else if (n =? 98)%N then Some (ascii_of_nat 8)
  else if (n =? 102)%N then Some (ascii_of_nat 12)
  else if (n =? 110)%N then Some (ascii_of_nat 10)
  else if (n =? 114)%N then Some (ascii_of_nat 13)
  else if (n =? 116)%N then Some (ascii_of_nat 9)
  else None.

Definition cons_unit (c : ascii) (r : outcome (string * string))
  : outcome (string * string) :=
  '(str, rest) ← r; Ret (String c str, rest).

(** JSONStringCharacters up to the closing quote, after the opening one:
    the decoded string and the rest of the text. *)
Fixpoint parse_chars (s : string) : outcome (string * string) :=
  match s with
  | EmptyString => Throw
  | String c s' =>
      if (c =? dquote)%char then Ret (EmptyString, s')
      else if (c =? backslash)%char then
        match s' with
        | EmptyString => Throw
        | String e s'' =>
            if (e =? "u")%char then
              match s'' with
              | String h1 (String h2 (String h3 (String h4 s3))) =>
                  match hex4 h1 h2 h3 h4 with
                  | None => Throw
                  | Some n =>
                      if (n <? 256)%N then cons_unit (ascii_of_N n) (parse_chars s3)
                      else Beyond
                  end
              | _ => Throw
              end
            else
              match escape_value e with
              | Some c' => cons_unit c' (parse_chars s'')
              | None => Throw
              end
        end
      else if (N_of_ascii c <? 32)%N then Throw
      else cons_unit c (parse_chars s')
  end.

Definition is_digit (c : ascii) : bool :=
  let n := N_of_ascii c in ((48 <=? n) && (n <=? 57))%N.

(** DecimalDigits: the longest run of digits and what follows it. *)
Fixpoint span_digits (s : string) : string * string :=
  match s with
  | EmptyString => (EmptyString, EmptyString)
  | String c s' =>
      if is_digit c then
        let '(ds, rest) := span_digits s' in (String c ds, rest)
      else (EmptyString, s)
  end.

(** JSONNumber, from the right: ExponentPart, JSONFraction,
    DecimalIntegerLiteral, and the optional minus sign. *)
Definition parse_exponent (acc s : string) : option (string * string) :=
  match s with
  | String e s1 =>
      if ((e =? "e") || (e =? "E"))%char then
        let '(sign, s2) :=
          match s1 with
          | String g s2 =>
              if ((g =? "+") || (g =? "-"))%char
              then (String g EmptyString, s2) else (EmptyString, s1)
          | EmptyString => (EmptyString, s1)
          end in
        let '(ds, rest) := span_digits s2 in
        match ds with
        | EmptyString => None
        | _ => Some (acc +:+ String e sign +:+ ds, rest)
        end
      else Some (acc, s)
  | EmptyString => Some (acc, s)
  end.

Definition parse_fraction (acc s : string) : option (string * string) :=
  match s with
  | String p s1 =>
      if (p =? ".")%char then
        let '(ds, rest) := span_digits s1 in
        match ds with
        | EmptyString => None
        | _ => parse_exponent (acc +:+ String p ds) rest
        end
      else parse_exponent acc s
  | EmptyString => Some (acc, s)
  end.

Definition parse_integer (acc s : string) : option (string * string) :=
  match s with
  | String c s1 =>
      if (c =? "0")%char then parse_fraction (acc +:+ "0") s1
      else if is_digit c then
        let '(ds, rest) := span_digits s1 in
        parse_fraction (acc +:+ String c ds) rest
      else None
  | EmptyString => None
  end.

Definition parse_number (s : string) : option (string * string) :=
  match s with
  | String c s1 =>
      if (c =? "-")%char then parse_integer "-" s1 else parse_integer EmptyString s
  | EmptyString => None
  end.

Fixpoint strip_prefix (word s : string) : option string :=
  match word with
  | EmptyString => Some s
  | String a word' =>
      match s with
      | EmptyString => None
      | String b s' => if (a =? b)%char then strip_prefix word' s' else None
      end
  end.

(** JSONNullLiteral, JSONBooleanLiteral and JSONNumber. *)
Definition parse_atom (s : string) : outcome (json * string) :=
  match strip_prefix "null" s with
  | Some rest => Ret (JNull, rest)
  | None =>
  match strip_prefix "true" s with
  | Some rest => Ret (JBool true, rest)
  | None =>
  match strip_prefix "false" s with
  | Some rest => Ret (JBool false, rest)
  | None =>
  match parse_number s with
  | Some (literal, rest) => Ret (JNum literal, rest)
  | None => Throw
  end end end end.

(** JSONValue, JSONElementList and JSONMemberList by recursive descent.
    [fuel] bounds the recursion; a later member with the key of an
    earlier one replaces it. *)
Fixpoint parse_value (fuel : nat) (s : string) {struct fuel}
  : outcome (json * string) :=
  match fuel with
  | O => NoFuel
  | S n =>
      match skip_ws s with
      | EmptyString => Throw
      | String c r =>
          if (c =? "{")%char then
            match skip_ws r with
            | EmptyString => Throw
            | String c' r' =>
                if (c' =? "}")%char then Ret (JObj ∅, r')
                else
                  '(kvs, rest) ← parse_members n (String c' r');
                  Ret (JObj (list_to_map (reverse kvs)), rest)
            end
          else if (c =? "[")%char then
            match skip_ws r with
            | EmptyString => Throw
            | String c' r' =>
                if (c' =? "]")%char then Ret (JArr [], r')
                else
                  '(vs, rest) ← parse_elements n (String c' r');
                  Ret (JArr vs, rest)
            end
          else if (c =? dquote)%char then
            '(str, rest) ← parse_chars r; Ret (JStr str, rest)
          else parse_atom (String c r)
      end
  end
with parse_elements (fuel : nat) (s : string) {struct fuel}
  : outcome (list json * string) :=
  match fuel with
  | O => NoFuel
  | S n =>
      '(v, r) ← parse_value n s;
      match skip_ws r with
      | EmptyString => Throw
      | String c r' =>
          if (c =? ",")%char then
            '(vs, rest) ← parse_elements n r'; Ret (v :: vs, rest)
          else if (c =? "]")%char then Ret ([v], r')
          else Throw
      end
  end
with parse_members (fuel : nat) (s : string) {struct fuel}
  : outcome (list (string * json) * string) :=
  match fuel with
  | O => NoFuel
  | S n =>
      match skip_ws s with
      | EmptyString => Throw
      | String c r =>
          if (c =? dquote)%char then
            '(k, r1) ← parse_chars r;
            match skip_ws r1 with
            | EmptyString => Throw
            | String c1 r2 =>
                if (c1 =? ":")%char then
                  '(v, r3) ← parse_value n r2;
                  match skip_ws r3 with
                  | EmptyString => Throw
                  | String c3 r4 =>
                      if (c3 =? ",")%char then
                        '(kvs, rest) ← parse_members n r4;
                        Ret ((k, v) :: kvs, rest)
                      else if (c3 =? "}")%char then Ret ([(k, v)], r4)
                      else Throw
                  end
                else Throw
            end
          else Throw
      end
  end.

(** [JSON.parse(text)]: one value, then white space only. *)
Definition parse (text : string) : outcome json :=
  '(v, rest) ← parse_value (2 * String.length text + 1) text;
  match skip_ws rest with
  | EmptyString => Ret v
  | _ => Throw
  end.
End JSON.

(** ** Persistence (App.jsx, lines 12 and 35-48) *)

Definition STORAGE_KEY : string := "nano_exhibition_manager_v1".

(** The aggregate as the JSON value [JSON.stringify] walks. *)
Definition item_json (it : item) : json := JObj (JStr <$> it).
Definition aggregate_json (d : aggregate) : json :=
  JObj ((λ l, JArr (item_json <$> l)) <$> d).

(** [localStorage.setItem(STORAGE_KEY, JSON.stringify(state))]; the local
    storage is a finite map from keys to texts. *)
Definition saveToStorage (state : json) (localStorage : gmap string string)
  : gmap string string :=
  <[STORAGE_KEY := JSON.stringify state]> localStorage.

(** [try { raw = getItem(KEY); if (!raw) return sampleData;
          return JSON.parse(raw) } catch (e) { return sampleData }].
    [!raw] holds for [null] (no entry) and for the empty text. *)
Definition loadFromStorage (localStorage : gmap string string) : outcome json :=
  try_catch
    (match localStorage !! STORAGE_KEY with
     | None => Ret (aggregate_json sampleData)
     | Some EmptyString => Ret (aggregate_json sampleData)
     | Some raw => JSON.parse raw
     end)
    (Ret (aggregate_json sampleData)).

(** ** Notions for the round trip *)

(** The text of one member of an object. *)
Definition member_text (kv : string * json) : string :=
  JSON.QuoteJSONString kv.1 +:+ ":" +:+ JSON.stringify kv.2.

(** A text that starts a value: its first character is neither white
    space nor the closing bracket. *)
Definition value_head (text : string) : Prop :=
  ∃ c s, text = String c s ∧ JSON.is_ws c = false ∧ (c =? "]")%char = false.

(** A value whose text the parser reads back, whatever follows it,
    whenever the recursion bound is not hit. *)
Record roundtrips (v : json) : Prop := Roundtrips {
  rt_head : value_head (JSON.stringify v);
  rt_parse : ∀ n rest,
    JSON.parse_value n (JSON.stringify v +:+ rest) ≠ NoFuel →
    JSON.parse_value n (JSON.stringify v +:+ rest) = Ret (v, rest)
}.

(** ** The documented behaviour, for comparison with the code

    These definitions follow the words of the specification, not the
    source; the theorems below compare them with the definitions above. *)

(** The per-collection field subset the specification documents for the
    search. *)
Definition documented_fields (collection : string) : list string :=
  if decide (collection = "exhibitors") then ["name"; "contact"; "booth"; "notes"]
  else if decide (collection = "booths") then ["code"; "size"; "notes"]
  else if decide (collection = "events") then ["title"; "location"; "speaker"]
  else if decide (collection = "attendees") then ["name"; "company"; "email"; "type"]
  else [].

(** [t] is a substring of [s]. *)
Definition substring_of (t s : string) : Prop :=
  ∃ pre post, s = pre +:+ t +:+ post.

(** The documented fields of a record, one after the other with nothing
    in between. *)
Definition plain_concatenation (fields : list string) (it : item) : string :=
  join EmptyString ((λ f, text_of (it !! f)) <$> fields).

(** The documented fields of a record with one space between neighbours. *)
Definition spaced_concatenation (fields : list string) (it : item) : string :=
  join " " ((λ f, text_of (it !! f)) <$> fields).

(** Escaping by doubling: each quote character becomes two. *)
Definition escape_doubling (s : string) : string :=
  string_of_list_ascii
    (mjoin ((λ c, if decide (c = dquote) then [dquote; dquote] else [c])
              <$> list_ascii_of_string s)).

(** A CSV row: the cells, each between quote characters, joined by commas. *)
Definition csv_quoted_row (cells : list string) : string :=
  join "," ((λ v, String dquote EmptyString +:+ v +:+ String dquote EmptyString)
              <$> cells).

Definition newline : string := String (ascii_of_nat 10) EmptyString.

(** The documented CSV text: the header row of labels, a newline, and the
    rows of the records joined by newlines. *)
Definition csv_spec (array : list item) (columns : list column) : string :=
  csv_quoted_row (label <$> columns) +:+ newline +:+
  join newline
    ((λ row, csv_quoted_row ((λ c, escape_doubling (text_of (row !! key c)))
                               <$> columns)) <$> array).

(** The names under which a record inherits from [Object.prototype]. *)
Definition inherited_keys : list string :=
  "__proto__" :: object_prototype_functions.

(** The text of what a record inherits under a name: the platform's text
    of a built-in function, and the text of [Object.prototype] under
    [__proto__]. *)
Definition inherited_text (native : string → string) (k : string) : string :=
  if decide (k = "__proto__") then "[object Object]" else native k.

(** The text of a cell: the value of the field where the record has the
    field, the text of the inherited value where the record lacks the
    field and the key is one of the inherited names, and the empty string
    for any other missing field. *)
Definition cell_text (native : string → string) (row : item) (k : string) : string :=
  match row !! k with
  | Some v => v
  | None => if decide (k ∈ inherited_keys) then inherited_text native k
            else EmptyString
  end.

(** The CSV text with the cells of [cell_text]. *)
Definition csv_inheriting (native : string → string) (array : list item)
    (columns : list column) : string :=
  csv_quoted_row (label <$> columns) +:+ newline +:+
  join newline
    ((λ row, csv_quoted_row ((λ c, escape_doubling (cell_text native row (key c)))
                               <$> columns)) <$> array).

(** ** Suffixes in use

    [after_prefix p s] is what follows [p] in [s] when [s] starts with
    [p]. The suffixes in use for a prefix are what follows the prefix and
    its hyphen in the ids of the records, one for each record whose id
    starts that way. *)
Fixpoint after_prefix (p s : string) : option string :=
  match p with
  | EmptyString => Some s
  | String a p' =>
      match s with
      | EmptyString => None
      | String b s' => if decide (a = b) then after_prefix p' s' else None
      end
  end.

Definition taken_suffixes (prefix : string) (l : list item) : list string :=
  omap (λ it : item, id ← it !! "id"; after_prefix (prefix +:+ "-") id) l.

(** ** Data for the examples

    An aggregate in which two attendees share an id, as [addItem] allows. *)
Definition at_1_again : item := {[ "id" := "at-1"; "name" := "Jane Doe" ]}.
Definition shared_id_data : aggregate :=
  <["attendees" := [at_1; at_1_again]]> sampleData.

(** ** Shape of the aggregate *)

(** The aggregate holds its four collections. *)
Definition well_formed (d : aggregate) : Prop :=
  ∀ c, c ∈ collections → is_Some (d !! c).

(** The updater functions the CRUD helpers hand to [setData], by the
    collection they work on. *)
Inductive crud : string → (aggregate → option aggregate) → Prop :=
  | crud_add collection it : crud collection (addItem collection it)
  | crud_update collection id patch : crud collection (updateItem collection id patch)
  | crud_remove collection id : crud collection (removeItem collection id).

(** The ids of a list of records, in order; [None] is a record without an
    id field. *)
Definition ids (l : list item) : list (option string) :=
  (λ it, it !! "id") <$> l.

(** ** Dashboard (App.jsx, line 158)

    [data.attendees.slice(-5).reverse()] *)
Definition latestRegistrations (data : aggregate) : option (list item) :=
  l ← data !! "attendees";
  Some (reverse (drop (length l - 5) l)).

(** ** Edit modal (App.jsx, lines 356-380)

    The form starts as a copy of the record; the inputs shown are the keys
    of the form other than id, and typing into the input of key [k]
    replaces the form by [{ ...form, [k]: value }]. *)
Definition editableKeys (form : item) : gset string := dom form ∖ {[ "id" ]}.

Definition typeInto (k value : string) (form : item) : option item :=
  if decide (k ∈ editableKeys form) then Some (<[k := value]> form) else None.

(** A sequence of key strokes, each into one of the inputs shown. *)
Fixpoint typeAll (edits : list (string * string)) (form : item) : option item :=
  match edits with
  | [] => Some form
  | (k, value) :: edits' => form' ← typeInto k value form; typeAll edits' form'
  end.


(** ** A reader of CSV

    A reader of the format of RFC 4180, section 2, which also takes a line
    feed alone as a line break, as the exported text has it. A cell is
    either quoted or bare. A quoted cell runs to the next quote character
    that is not doubled, a doubled one inside it stands for one, and any
    other code unit stands for itself. A bare cell holds the characters
    U+0020 to U+007E other than the quote and the comma. Cells are
    separated by commas, records by carriage return and line feed or by a
    line feed, and a line break at the very end is optional. It is not
    part of [App.jsx]; it is what reads the exported text back. *)
Inductive csv_mode := CellStart | Bare | InCell | QuoteSeen | CRSeen.

(** TEXTDATA of RFC 4180. *)
Definition is_textdata (c : ascii) : bool :=
  let n := N_of_ascii c in
  ((32 <=? n) && (n <=? 126) && negb (n =? 34) && negb (n =? 44))%N.

Fixpoint read_csv_go (s : string) (mode : csv_mode) (cell : string)
    (cells : list string) (rows : list (list string))
  : option (list (list string)) :=
  match s with
  | EmptyString =>
      match mode with
      | CellStart =>
          match cells with
          | [] => Some rows
          | _ => Some (rows ++ [cells ++ [EmptyString]])
          end
      | Bare | QuoteSeen => Some (rows ++ [cells ++ [cell]])
      | InCell | CRSeen => None
      end
  | String c s' =>
      match mode with
      | CellStart =>
          if decide (c = dquote) then read_csv_go s' InCell EmptyString cells rows
          else if decide (c = ","%char)
          then read_csv_go s' CellStart EmptyString (cells ++ [EmptyString]) rows
          else if decide (c = ascii_of_nat 10)
          then read_csv_go s' CellStart EmptyString [] (rows ++ [cells ++ [EmptyString]])
          else if decide (c = ascii_of_nat 13)
          then read_csv_go s' CRSeen EmptyString cells rows
          else if is_textdata c
          then read_csv_go s' Bare (String c EmptyString) cells rows
          else None
      | Bare =>
          if decide (c = ","%char)
          then read_csv_go s' CellStart EmptyString (cells ++ [cell]) rows
          else if decide (c = ascii_of_nat 10)
          then read_csv_go s' CellStart EmptyString [] (rows ++ [cells ++ [cell]])
          else if decide (c = ascii_of_nat 13)
          then read_csv_go s' CRSeen cell cells rows
          else if is_textdata c
          then read_csv_go s' Bare (cell +:+ String c EmptyString) cells rows
          else None
      | InCell =>
          if decide (c = dquote) then read_csv_go s' QuoteSeen cell cells rows
          else read_csv_go s' InCell (cell +:+ String c EmptyString) cells rows
      | QuoteSeen =>
          if decide (c = dquote)
          then read_csv_go s' InCell (cell +:+ String dquote EmptyString) cells rows
          else if decide (c = ","%char)
          then read_csv_go s' CellStart EmptyString (cells ++ [cell]) rows
          else if decide (c = ascii_of_nat 10)
          then read_csv_go s' CellStart EmptyString [] (rows ++ [cells ++ [cell]])
          else if decide (c = ascii_of_nat 13)
          then read_csv_go s' CRSeen cell cells rows
          else None
      | CRSeen =>
          if decide (c = ascii_of_nat 10)
          then read_csv_go s' CellStart EmptyString [] (rows ++ [cells ++ [cell]])
          else None
      end
  end.

Definition read_csv (text : string) : option (list (list string)) :=
  read_csv_go text CellStart EmptyString [] [].

(** No quote character occurs in the text. *)
Fixpoint quote_free (s : string) : bool :=
  match s with
  | EmptyString => true
  | String c s' => if decide (c = dquote) then false else quote_free s'
  end.

(** ** Clipboard and backup (App.jsx, lines 192, 338 and 350) *)

(** The text of [JSON.stringify(filteredExhibitors)] that the Copy JSON
    button hands to the clipboard. *)
Definition copyFilteredJSON (q : string) (data : aggregate) : option string :=
  l ← filteredExhibitors q data;
  Some (JSON.stringify (JArr (item_json <$> l))).

(** The text of [JSON.stringify(data)] of the Copy Full JSON button. *)
Definition copyFullJSON (data : aggregate) : string :=
  JSON.stringify (aggregate_json data).

(** [JSON.stringify(value, null, space)] after ECMA-262: [gap] is the
    indentation unit and [indent] the current indentation. With an empty
    gap nothing is inserted; otherwise every element and member starts on
    a line of its own and a space follows the colon of a member. *)
Fixpoint stringify_gap (gap indent : string) (value : json) : string :=
  match value with
  | JNull => "null"
  | JBool true => "true"
  | JBool false => "false"
  | JNum literal => literal
  | JStr s => JSON.QuoteJSONString s
  | JArr elements =>
      let stepback := indent in
      let indent := indent +:+ gap in
      match stringify_gap gap indent <$> elements with
      | [] => "[]"
      | partial =>
          if decide (gap = EmptyString)
          then "[" +:+ join "," partial +:+ "]"
          else "[" +:+ newline +:+ indent +:+
               join ("," +:+ newline +:+ indent) partial +:+
               newline +:+ stepback +:+ "]"
      end
  | JObj members =>
      let stepback := indent in
      let indent := indent +:+ gap in
      match map_fold (λ k v partial,
                        (JSON.QuoteJSONString k +:+ ":" +:+
                         (if decide (gap = EmptyString) then EmptyString else " ")
                         +:+ stringify_gap gap indent v) :: partial)
                     [] members with
      | [] => "{}"
      | partial =>
          if decide (gap = EmptyString)
          then "{" +:+ join "," partial +:+ "}"
          else "{" +:+ newline +:+ indent +:+
               join ("," +:+ newline +:+ indent) partial +:+
               newline +:+ stepback +:+ "}"
      end
  end.

(** The download of the JSON backup button:
    [JSON.stringify(data, null, 2)] under a fixed file name. *)
Definition downloadBackup (data : aggregate) : download :=
  {| file_name := "nano_exhibition_data.json";
     mime := "application/json";
     body := stringify_gap "  " EmptyString (aggregate_json data) |}.

(** A text of white space only: the parser skips it. *)
Definition blank (s : string) : Prop :=
  ∀ x, JSON.skip_ws (s +:+ x) = JSON.skip_ws x.

(** The text of one member of an object, indented. *)
Definition member_text_gap (indent : string) (kv : string * json) : string :=
  JSON.QuoteJSONString kv.1 +:+ ":" +:+ " " +:+ stringify_gap "  " indent kv.2.

(** A value whose indented text the parser reads back at every
    indentation, whenever the recursion bound is not hit. *)
Record roundtrips_gap (v : json) : Prop := RoundtripsGap {
  rtg_head : ∀ indent, value_head (stringify_gap "  " indent v);
  rtg_parse : ∀ indent n rest, blank indent →
    JSON.parse_value n (stringify_gap "  " indent v +:+ rest) ≠ NoFuel →
    JSON.parse_value n (stringify_gap "  " indent v +:+ rest) = Ret (v, rest)
}.

(** ** The running application (App.jsx, lines 73-96, 208, 349 and 360)

    The state of the component and the local storage beside it.
    [app_pristine] tells that the state is the very [sampleData] object:
    React runs the effect of line 80 after a render in which [data]
    changed, and skips both when [setData] is given the object that is
    the state already. *)
Record app := App {
  app_data : aggregate;
  app_pristine : bool;
  app_storage : gmap string string
}.

(** [useEffect(() => saveToStorage(data), [data])] *)
Definition persist (a : app) : app :=
  {| app_data := app_data a;
     app_pristine := app_pristine a;
     app_storage := saveToStorage (aggregate_json (app_data a)) (app_storage a) |}.

(** [setData(updater)]: the updater builds a new object, the component
    renders again and the effect runs; a throw of the updater is [None]. *)
Definition setData (updater : aggregate → option aggregate) (a : app) : option app :=
  d ← updater (app_data a);
  Some (persist {| app_data := d; app_pristine := false;
                   app_storage := app_storage a |}).

(** [localStorage.removeItem(STORAGE_KEY); setData(sampleData)] *)
Definition resetToSample (a : app) : app :=
  let cleared := {| app_data := sampleData; app_pristine := true;
                    app_storage := delete STORAGE_KEY (app_storage a) |} in
  if app_pristine a then cleared else persist cleared.

(** What the user does: the four submit forms, Save in the edit modal,
    the Delete buttons and the reset button, the last two with the answer
    given to [confirm]. *)
Inductive action :=
  | SubmitExhibitor (rnd : string) (form : item)
  | SubmitBooth (rnd : string) (form : item)
  | SubmitEvent (rnd : string) (form : item)
  | SubmitAttendee (rnd : string) (form : item)
  | SaveEdit (collection id : string) (form : item)
  | Delete (collection id : string) (confirmed : bool)
  | Reset (confirmed : bool).

Definition handle (act : action) (a : app) : option app :=
  match act with
  | SubmitExhibitor rnd form => setData (submitExhibitor rnd form) a
  | SubmitBooth rnd form => setData (submitBooth rnd form) a
  | SubmitEvent rnd form => setData (submitEvent rnd form) a
  | SubmitAttendee rnd form => setData (submitAttendee rnd form) a
  | SaveEdit collection id form => setData (updateItem collection id form) a
  | Delete collection id confirmed =>
      if confirmed then setData (removeItem collection id) a else Some a
  | Reset confirmed => if confirmed then Some (resetToSample a) else Some a
  end.

Fixpoint run (acts : list action) (a : app) : option app :=
  match acts with
  | [] => Some a
  | act :: acts' => a' ← handle act a; run acts' a'
  end.

(** The storage holds the current data: loading returns it. *)
Definition persisted (a : app) : Prop :=
  loadFromStorage (app_storage a) = Ret (aggregate_json (app_data a)).

(** The action names one of the four collections. *)
Definition on_collections (act : action) : Prop :=
  match act with
  | SaveEdit collection _ _ | Delete collection _ _ => collection ∈ collections
  | _ => True
  end.

(** A session for the examples. *)

(** The state after the first render of a page whose storage is empty. *)
Definition first_render : app :=
  persist {| app_data := sampleData; app_pristine := true; app_storage := ∅ |}.

Definition session : list action :=
  [SubmitAttendee "0.4fzyo82mvyr" {[ "name" := "Jane Doe" ]};
   SaveEdit "booths" "b-A1" (<["size" := "4x4"]> b_A1);
   Delete "exhibitors" "ex-1" true;
   Delete "exhibitors" "ex-2" false;
   Reset true; Reset true].

(** * Properties of the CRUD helpers *)

Section crud.
Implicit Types (d : aggregate) (l : list item) (it patch : item).
Implicit Types (collection id : string).

Lemma spread_lookup_patch it patch k v :
  patch !! k = Some v → spread it patch !! k = Some v.
Proof. intros H. unfold spread. by apply lookup_union_Some_l. Qed.

Lemma spread_lookup_other it patch k :
  patch !! k = None → spread it patch !! k = it !! k.
Proof. intros H. unfold spread. by apply lookup_union_r. Qed.

Lemma filter_split_length id l :
  length (filter (λ it, ¬ has_id id it) l) + count_id id l = length l.
Proof.
  unfold count_id. induction l as [|it l IH]; [done|].
  rewrite !filter_cons. destruct (decide (has_id id it)) as [Hid|Hid].
  - rewrite decide_False by tauto. simpl. lia.
  - rewrite decide_True by done. simpl. lia.
Qed.

Lemma count_id_0 id l :
  count_id id l = 0 ↔ ∀ it, it ∈ l → ¬ has_id id it.
Proof.
  unfold count_id. induction l as [|it l IH].
  - split; [|done]. intros _ it Hin. by apply not_elem_of_nil in Hin.
  - rewrite filter_cons. destruct (decide (has_id id it)) as [Hid|Hid]; simpl.
    + split; [done|]. intros Hall. destruct (Hall it); [left|done].
    + rewrite IH. split.
      * intros Hall it' [->|Hin]%elem_of_cons; auto.
      * intros Hall it' Hin. apply Hall. by right.
Qed.

Lemma filter_absent id l :
  (∀ it, it ∈ l → ¬ has_id id it) → filter (λ it, ¬ has_id id it) l = l.
Proof.
  intros Hall. induction l as [|it l IH]; [done|].
  rewrite filter_cons, decide_True by (apply Hall; left).
  f_equal. apply IH. intros ? ?. apply Hall. by right.
Qed.

Lemma map_absent id patch l :
  (∀ it, it ∈ l → ¬ has_id id it) →
  (λ it, if decide (has_id id it) then spread it patch else it) <$> l = l.
Proof.
  intros Hall. induction l as [|it l IH]; [done|].
  rewrite fmap_cons, decide_False by (apply Hall; left).
  f_equal. apply IH. intros ? ?. apply Hall. by right.
Qed.

Lemma addItem_insert collection it d l :
  d !! collection = Some l →
  addItem collection it d = Some (<[collection := l ++ [it]]> d).
Proof. intros Hl. unfold addItem. by rewrite Hl. Qed.

Lemma count_id_lookup id l i it :
  l !! i = Some it → has_id id it → 1 ≤ count_id id l.
Proof.
  unfold count_id. revert i. induction l as [|x l IH]; intros i Hi Hid; [done|].
  rewrite filter_cons. destruct i as [|i]; simplify_eq/=.
  - rewrite decide_True by done. simpl. lia.
  - specialize (IH _ Hi Hid). case_decide; simpl; lia.
Qed.

Lemma count_id_two id l i j it1 it2 :
  i ≠ j → l !! i = Some it1 → l !! j = Some it2 →
  has_id id it1 → has_id id it2 → 2 ≤ count_id id l.
Proof.
  revert i j. induction l as [|x l IH]; intros i j Hne Hi Hj H1 H2; [done|].
  unfold count_id in *. rewrite filter_cons.
  destruct i as [|i], j as [|j]; simplify_eq/=.
  - rewrite decide_True by done. simpl.
    pose proof (count_id_lookup _ _ _ _ Hj H2). unfold count_id in *. lia.
  - rewrite decide_True by done. simpl.
    pose proof (count_id_lookup _ _ _ _ Hi H1). unfold count_id in *. lia.
  - assert (i ≠ j) as Hne' by congruence.
    specialize (IH _ _ Hne' Hi Hj H1 H2). case_decide; simpl; lia.
Qed.
End crud.

(** C2. [addItem] appends the item at the end of the named collection,
    whose length grows by exactly one, and leaves every other collection
    as it was. *)
Theorem addItem_appends (collection : string) (it : item) (d : aggregate)
    (l : list item) :
  d !! collection = Some l →
  ∃ d', addItem collection it d = Some d' ∧
        d' !! collection = Some (l ++ [it]) ∧
        length (l ++ [it]) = S (length l) ∧
        ∀ other, other ≠ collection → d' !! other = d !! other.
Proof.
  intros Hl. exists (<[collection := l ++ [it]]> d).
  rewrite (addItem_insert _ _ _ l) by done. repeat split.
  - apply lookup_insert_eq.
  - rewrite length_app. simpl. lia.
  - intros other Hne. by apply lookup_insert_ne.
Qed.

Lemma addItem_appends_witness :
  ∃ d', addItem "attendees" ex_1 sampleData = Some d' ∧
        d' !! "attendees" = Some ([at_1] ++ [ex_1]) ∧
        length ([at_1] ++ [ex_1]) = S (length [at_1]) ∧
        ∀ other, other ≠ "attendees" → d' !! other = sampleData !! other.
Proof. apply (addItem_appends "attendees" ex_1 sampleData [at_1]). reflexivity. Defined.

(** C1 (amended). [updateItem] merges the patch over every record whose
    id matches: a field named in the patch takes the patch's value, every
    other field is kept, the id is kept when the patch has no id field or
    repeats the id, and becomes the patch's id otherwise; records that do
    not match, the collection's length and the other collections are
    unchanged. *)
Theorem updateItem_merges (collection id : string) (patch : item)
    (d : aggregate) (l : list item) :
  d !! collection = Some l →
  ∃ l', updateItem collection id patch d = Some (<[collection := l']> d) ∧
        length l' = length l ∧
        ∀ i it, l !! i = Some it →
          (¬ has_id id it → l' !! i = Some it) ∧
          (has_id id it →
             ∃ it', l' !! i = Some it' ∧
               (∀ k v, patch !! k = Some v → it' !! k = Some v) ∧
               (∀ k, patch !! k = None → it' !! k = it !! k) ∧
               (patch !! "id" = None ∨ patch !! "id" = Some id → has_id id it') ∧
               (∀ id', patch !! "id" = Some id' → has_id id' it')).
Proof.
  intros Hl. eexists. unfold updateItem. rewrite Hl. simpl.
  split; [reflexivity|]. split; [apply length_fmap|].
  intros i it Hi. rewrite list_lookup_fmap, Hi. simpl. split.
  - intros Hn. by rewrite decide_False.
  - intros Hid. rewrite decide_True by done. eexists. split; [reflexivity|].
    split; [|split; [|split]].
    + intros k v. apply spread_lookup_patch.
    + intros k. apply spread_lookup_other.
    + intros [Hp|Hp]; unfold has_id.
      * by rewrite spread_lookup_other.
      * by apply spread_lookup_patch.
    + intros id' Hp. by apply spread_lookup_patch.
Qed.

Lemma updateItem_merges_witness :
  ∃ l', updateItem "booths" "b-A1" {[ "size" := "4x4" ]} sampleData
          = Some (<["booths" := l']> sampleData) ∧
        length l' = length [b_A1; b_B2] ∧
        ∀ i it, [b_A1; b_B2] !! i = Some it →
          (¬ has_id "b-A1" it → l' !! i = Some it) ∧
          (has_id "b-A1" it →
             ∃ it', l' !! i = Some it' ∧
               (∀ k v, ({[ "size" := "4x4" ]} : item) !! k = Some v → it' !! k = Some v) ∧
               (∀ k, ({[ "size" := "4x4" ]} : item) !! k = None → it' !! k = it !! k) ∧
               (({[ "size" := "4x4" ]} : item) !! "id" = None
                ∨ ({[ "size" := "4x4" ]} : item) !! "id" = Some "b-A1" → has_id "b-A1" it') ∧
               (∀ id', ({[ "size" := "4x4" ]} : item) !! "id" = Some id' → has_id id' it')).
Proof.
  apply (updateItem_merges "booths" "b-A1" {[ "size" := "4x4" ]} sampleData [b_A1; b_B2]).
  reflexivity.
Defined.

(** C1, as stated, fails: a patch that carries an id field replaces the
    id of the matching record. After patching the sample booth b-A1 with
    an id field, no booth has the id b-A1 any more. *)
Lemma updateItem_patch_id_counterexample :
  (∃ it, it ∈ [b_A1; b_B2] ∧ has_id "b-A1" it) ∧
  sampleData !! "booths" = Some [b_A1; b_B2] ∧
  ∃ l', updateItem "booths" "b-A1" {[ "id" := "b-X" ]} sampleData
          = Some (<["booths" := l']> sampleData) ∧
        (<["booths" := l']> sampleData) !! "booths" = Some l' ∧
        (∀ it, it ∈ l' → ¬ has_id "b-A1" it) ∧
        (∃ it, l' !! 0 = Some it ∧ has_id "b-X" it).
Proof.
  split; [exists b_A1; split; [left|reflexivity]|].
  split; [reflexivity|].
  exists [spread b_A1 {[ "id" := "b-X" ]}; b_B2].
  split; [reflexivity|]. split; [reflexivity|]. split.
  - intros it Hin. apply elem_of_cons in Hin as [->|Hin];
      [|apply elem_of_cons in Hin as [->|Hin]; [|by apply not_elem_of_nil in Hin]];
      unfold has_id; vm_compute; congruence.
  - eexists. split; reflexivity.
Qed.

(** C3 (amended). [removeItem] shortens the named collection by the
    number of records that carry the id: by exactly one when exactly one
    record carries it, and not at all, leaving the whole aggregate as it
    was, when none does. *)
Theorem removeItem_length (collection id : string) (d : aggregate)
    (l : list item) :
  d !! collection = Some l →
  ∃ l', removeItem collection id d = Some (<[collection := l']> d) ∧
        length l' + count_id id l = length l ∧
        (count_id id l = 1 → S (length l') = length l) ∧
        ((∀ it, it ∈ l → ¬ has_id id it) → removeItem collection id d = Some d).
Proof.
  intros Hl. eexists. unfold removeItem. rewrite Hl. simpl.
  split; [reflexivity|]. split; [apply filter_split_length|]. split.
  - intros H1. pose proof (filter_split_length id l). lia.
  - intros Habs. rewrite filter_absent by done. by rewrite insert_id.
Qed.

Lemma removeItem_length_witness :
  ∃ l', removeItem "exhibitors" "ex-1" sampleData
          = Some (<["exhibitors" := l']> sampleData) ∧
        length l' + count_id "ex-1" [ex_1; ex_2] = length [ex_1; ex_2] ∧
        (count_id "ex-1" [ex_1; ex_2] = 1 → S (length l') = length [ex_1; ex_2]) ∧
        ((∀ it, it ∈ [ex_1; ex_2] → ¬ has_id "ex-1" it) →
         removeItem "exhibitors" "ex-1" sampleData = Some sampleData).
Proof. apply (removeItem_length "exhibitors" "ex-1" sampleData [ex_1; ex_2]). reflexivity. Defined.

(** C3, as stated, fails when two records share the id: adding to the
    sample attendees a second record with the id at-1 and then removing
    at-1 shortens the collection by two. *)
Lemma removeItem_shared_id_counterexample :
  ∃ d l l',
    addItem "attendees" {[ "id" := "at-1"; "name" := "Jane Doe" ]} sampleData = Some d ∧
    d !! "attendees" = Some l ∧
    (∃ it, it ∈ l ∧ has_id "at-1" it) ∧
    removeItem "attendees" "at-1" d = Some (<["attendees" := l']> d) ∧
    length l = 2 ∧ length l' = 0.
Proof.
  eexists _, [at_1; {[ "id" := "at-1"; "name" := "Jane Doe" ]}], [].
  split; [reflexivity|]. split; [reflexivity|].
  split; [exists at_1; split; [left|reflexivity]|].
  split; [reflexivity|]. split; reflexivity.
Qed.

(** C7. [updateItem] on an id that no record of the collection carries
    returns the aggregate unchanged, and throws nothing. *)
Theorem updateItem_absent (collection id : string) (patch : item)
    (d : aggregate) (l : list item) :
  d !! collection = Some l →
  (∀ it, it ∈ l → ¬ has_id id it) →
  updateItem collection id patch d = Some d.
Proof.
  intros Hl Habs. unfold updateItem. rewrite Hl. simpl.
  rewrite map_absent by done. by rewrite insert_id.
Qed.

Lemma updateItem_absent_witness :
  updateItem "events" "ev-9" {[ "title" := "Closing" ]} sampleData = Some sampleData.
Proof.
  apply (updateItem_absent "events" "ev-9" {[ "title" := "Closing" ]} sampleData [ev_1]).
  - reflexivity.
  - intros it Hin. apply list_elem_of_singleton in Hin as ->.
    unfold has_id. vm_compute. congruence.
Defined.

(** C10. [removeItem] drops every record that carries the id and keeps
    the others, so the length falls by at least two as soon as two
    positions carry it; [updateItem] patches every record that carries
    the id: each of them takes the value of the patch for every field the
    patch names and keeps its other fields. *)
Theorem removeItem_updateItem_every_match (collection id : string)
    (patch : item) (d : aggregate) (l : list item) :
  d !! collection = Some l →
  (∃ l', removeItem collection id d = Some (<[collection := l']> d) ∧
         (∀ it, it ∈ l' ↔ it ∈ l ∧ ¬ has_id id it) ∧
         length l' + count_id id l = length l ∧
         (∀ i j it1 it2, i ≠ j → l !! i = Some it1 → l !! j = Some it2 →
            has_id id it1 → has_id id it2 → length l' + 2 ≤ length l)) ∧
  (∃ l'', updateItem collection id patch d = Some (<[collection := l'']> d) ∧
          ∀ i it, l !! i = Some it → has_id id it →
            ∃ it', l'' !! i = Some it' ∧
                   (∀ k v, patch !! k = Some v → it' !! k = Some v) ∧
                   (∀ k, patch !! k = None → it' !! k = it !! k)).
Proof.
  intros Hl. split.
  - eexists. unfold removeItem. rewrite Hl. simpl.
    split; [reflexivity|]. split; [|split].
    + intros it. rewrite list_elem_of_filter. tauto.
    + apply filter_split_length.
    + intros i j it1 it2 Hne Hi Hj H1 H2.
      pose proof (filter_split_length id l).
      pose proof (count_id_two id l i j it1 it2 Hne Hi Hj H1 H2). lia.
  - eexists. unfold updateItem. rewrite Hl. simpl.
    split; [reflexivity|].
    intros i it Hi Hid. rewrite list_lookup_fmap, Hi. simpl.
    rewrite decide_True by done. eexists. split; [reflexivity|]. split.
    + intros k v. apply spread_lookup_patch.
    + intros k. apply spread_lookup_other.
Qed.

Lemma removeItem_updateItem_every_match_witness :
  (∃ l', removeItem "attendees" "at-1"
           shared_id_data
         = Some (<["attendees" := l']>
                   shared_id_data) ∧
         (∀ it, it ∈ l' ↔ it ∈ [at_1; at_1_again] ∧ ¬ has_id "at-1" it) ∧
         length l' + count_id "at-1" [at_1; at_1_again] = 2 ∧
         (∀ i j it1 it2, i ≠ j →
            [at_1; at_1_again] !! i = Some it1 →
            [at_1; at_1_again] !! j = Some it2 →
            has_id "at-1" it1 → has_id "at-1" it2 → length l' + 2 ≤ 2)) ∧
  (∃ l'', updateItem "attendees" "at-1" {[ "type" := "Staff" ]}
            shared_id_data
          = Some (<["attendees" := l'']>
                    shared_id_data) ∧
          ∀ i it, [at_1; at_1_again] !! i = Some it → has_id "at-1" it →
            ∃ it', l'' !! i = Some it' ∧
                   (∀ k v, ({[ "type" := "Staff" ]} : item) !! k = Some v →
                           it' !! k = Some v) ∧
                   (∀ k, ({[ "type" := "Staff" ]} : item) !! k = None →
                         it' !! k = it !! k)).
Proof.
  apply (removeItem_updateItem_every_match "attendees" "at-1" {[ "type" := "Staff" ]}
           shared_id_data
           [at_1; at_1_again]).
  reflexivity.
Defined.

(** * Identifier generation *)

Lemma string_app_cons (x : ascii) (a b : string) :
  String x a +:+ b = String x (a +:+ b).
Proof. reflexivity. Qed.

Lemma string_app_nil_l (a : string) : EmptyString +:+ a = a.
Proof. reflexivity. Qed.

Lemma string_app_assoc (a b c : string) : (a +:+ b) +:+ c = a +:+ b +:+ c.
Proof.
  induction a as [|x a IH]; [done|].
  by rewrite !string_app_cons, IH.
Qed.

Lemma string_app_nil_r (a : string) : a +:+ EmptyString = a.
Proof.
  induction a as [|x a IH]; [done|].
  by rewrite string_app_cons, IH.
Qed.

Lemma uid_inj_slice (prefix rnd rnd' : string) :
  uid prefix rnd = uid prefix rnd' ↔ slice 2 9 rnd = slice 2 9 rnd'.
Proof.
  unfold uid. split.
  - intros H. apply (inj (String.app prefix)) in H.
    by apply (inj (String.app "-")) in H.
  - by intros ->.
Qed.

Lemma after_prefix_spec (p s r : string) :
  after_prefix p s = Some r ↔ s = p +:+ r.
Proof.
  revert s. induction p as [|a p IH]; intros s; simpl.
  - rewrite string_app_nil_l. split; congruence.
  - rewrite string_app_cons. destruct s as [|b s]; [done|].
    case_decide as Hab; [subst; rewrite IH|]; split; congruence.
Qed.

Lemma taken_suffixes_spec (prefix rnd : string) (l : list item) :
  slice 2 9 rnd ∈ taken_suffixes prefix l ↔
  ∃ it, it ∈ l ∧ has_id (uid prefix rnd) it.
Proof.
  unfold taken_suffixes. rewrite list_elem_of_omap.
  split; intros (it & Hin & H); exists it; (split; [done|]).
  - destruct (it !! "id") as [id|] eqn:E; [|done]. simpl in H.
    apply after_prefix_spec in H. unfold has_id, uid.
    by rewrite E, H, string_app_assoc.
  - unfold has_id, uid in H. rewrite H. simpl.
    apply after_prefix_spec. by rewrite string_app_assoc.
Qed.

Lemma taken_suffixes_length (prefix : string) (l : list item) :
  length (taken_suffixes prefix l) ≤ length l.
Proof.
  unfold taken_suffixes.
  generalize (λ it : item, id ← it !! "id"; after_prefix (prefix +:+ "-") id).
  intros f. induction l as [|it l IH]; [done|].
  csimpl. destruct (f it); simpl; lia.
Qed.

(** C8 (amended). The record a [submit] handler adds carries the id
    [uid prefix rnd]. That id differs from every id already in the
    collection exactly when characters 2 to 8 of the draw are not among
    the suffixes in use, of which there are at most as many as records.
    Nothing checks for a collision: the record is added in either case,
    so that one more record carries the id than before. *)
Theorem newItem_id_fresh (collection prefix rnd : string) (form : item)
    (d : aggregate) (l : list item) :
  d !! collection = Some l →
  form !! "id" = None →
  ∃ d', addItem collection (newItem prefix rnd form) d = Some d' ∧
        d' !! collection = Some (l ++ [newItem prefix rnd form]) ∧
        has_id (uid prefix rnd) (newItem prefix rnd form) ∧
        ((∀ it, it ∈ l → ¬ has_id (uid prefix rnd) it) ↔
         slice 2 9 rnd ∉ taken_suffixes prefix l) ∧
        length (taken_suffixes prefix l) ≤ length l ∧
        count_id (uid prefix rnd) (l ++ [newItem prefix rnd form])
          = S (count_id (uid prefix rnd) l).
Proof.
  intros Hl Hform.
  assert (has_id (uid prefix rnd) (newItem prefix rnd form)) as Hnew.
  { unfold has_id, newItem. rewrite spread_lookup_other by done.
    apply lookup_singleton_eq. }
  exists (<[collection := l ++ [newItem prefix rnd form]]> d).
  split; [by apply addItem_insert|]. split; [apply lookup_insert_eq|].
  split; [done|]. split; [|split].
  - rewrite taken_suffixes_spec. split.
    + intros Hfresh (it & Hin & Hid). by apply (Hfresh it).
    + intros Hnone it Hin Hid. apply Hnone. by exists it.
  - apply taken_suffixes_length.
  - unfold count_id. rewrite filter_app, length_app, filter_cons.
    rewrite decide_True by done. simpl. lia.
Qed.

Lemma newItem_id_fresh_witness :
  ∃ d', addItem "attendees"
          (newItem "at" "0.k3j9x2a5p8q" {[ "name" := "Jane Doe" ]}) sampleData = Some d' ∧
        d' !! "attendees"
          = Some ([at_1] ++ [newItem "at" "0.k3j9x2a5p8q" {[ "name" := "Jane Doe" ]}]) ∧
        has_id (uid "at" "0.k3j9x2a5p8q")
          (newItem "at" "0.k3j9x2a5p8q" {[ "name" := "Jane Doe" ]}) ∧
        ((∀ it, it ∈ [at_1] → ¬ has_id (uid "at" "0.k3j9x2a5p8q") it) ↔
         slice 2 9 "0.k3j9x2a5p8q" ∉ taken_suffixes "at" [at_1]) ∧
        length (taken_suffixes "at" [at_1]) ≤ length [at_1] ∧
        count_id (uid "at" "0.k3j9x2a5p8q")
          ([at_1] ++ [newItem "at" "0.k3j9x2a5p8q" {[ "name" := "Jane Doe" ]}])
          = S (count_id (uid "at" "0.k3j9x2a5p8q") [at_1]).
Proof.
  apply (newItem_id_fresh "attendees" "at" "0.k3j9x2a5p8q"
           {[ "name" := "Jane Doe" ]} sampleData [at_1]).
  - reflexivity.
  - reflexivity.
Defined.

Example taken_suffixes_mixed :
  taken_suffixes "at" [at_1; ex_1; newItem "at" "0.k3j9x2a5p8q" ∅] = ["1"; "k3j9x2a"].
Proof. vm_compute. reflexivity. Qed.

(** C8, as stated, fails: two different draws that agree on their
    characters 2 to 8 give the same id, and [addItem] adds the second
    record next to the first. *)
Lemma uid_collision_counterexample :
  "0.k3j9x2a5p8q" ≠ "0.k3j9x2a7c1m" ∧
  ∃ d1 l1,
    submitAttendee "0.k3j9x2a5p8q" {[ "name" := "Jane Doe" ]} sampleData = Some d1 ∧
    d1 !! "attendees" = Some l1 ∧
    (∃ it, it ∈ l1 ∧ has_id (uid "at" "0.k3j9x2a7c1m") it) ∧
    ∃ d2 l2,
      submitAttendee "0.k3j9x2a7c1m" {[ "name" := "John Roe" ]} d1 = Some d2 ∧
      d2 !! "attendees" = Some l2 ∧
      count_id (uid "at" "0.k3j9x2a7c1m") l2 = 2.
Proof.
  split; [congruence|].
  eexists _, [at_1; newItem "at" "0.k3j9x2a5p8q" {[ "name" := "Jane Doe" ]}].
  split; [reflexivity|]. split; [reflexivity|]. split.
  - eexists. split; [right; left|]. reflexivity.
  - eexists _, _. split; [reflexivity|]. split; [reflexivity|]. reflexivity.
Qed.

(** * Filtered views *)

Lemma prefix_spec (t s : string) :
  String.prefix t s = true ↔ ∃ post, s = t +:+ post.
Proof.
  revert s. induction t as [|a t IH]; intros s.
  - split; [intros _; by exists s|]. by destruct s.
  - destruct s as [|b s]; simpl.
    + split; [done|]. by intros [post Hpost].
    + destruct (ascii_dec a b) as [->|Hne].
      * rewrite IH. split; intros [post Hpost]; exists post.
        -- by rewrite string_app_cons, <-Hpost.
        -- rewrite string_app_cons in Hpost. congruence.
      * split; [done|]. intros [post Hpost].
        rewrite string_app_cons in Hpost. congruence.
Qed.

Lemma includes_nil (t : string) :
  includes EmptyString t = String.prefix t EmptyString || false.
Proof. reflexivity. Qed.

Lemma includes_cons (c : ascii) (s t : string) :
  includes (String c s) t = String.prefix t (String c s) || includes s t.
Proof. reflexivity. Qed.

Lemma includes_spec (s t : string) :
  includes s t = true ↔ substring_of t s.
Proof.
  unfold substring_of. split.
  - induction s as [|c s IH].
    + rewrite includes_nil, orb_false_r. intros [post Hpost]%prefix_spec.
      exists EmptyString, post. by rewrite string_app_nil_l.
    + rewrite includes_cons. intros [Hp|Hi]%orb_true_iff.
      * apply prefix_spec in Hp as [post Hpost].
        exists EmptyString, post. by rewrite string_app_nil_l.
      * destruct (IH Hi) as (pre & post & ->).
        exists (String c pre), post. by rewrite string_app_cons.
  - intros (pre & post & ->). induction pre as [|c pre IH].
    + rewrite string_app_nil_l.
      assert (String.prefix t (t +:+ post) = true) as Hp
        by (apply prefix_spec; by exists post).
      destruct (t +:+ post); [rewrite includes_nil|rewrite includes_cons];
        by rewrite Hp.
    + rewrite string_app_cons, includes_cons, IH. apply orb_true_r.
Qed.

Lemma includes_empty (s : string) : includes s EmptyString = true.
Proof. apply includes_spec. exists EmptyString, s. by rewrite !string_app_nil_l. Qed.

Lemma matches_empty (fields : list string) (it : item) :
  matches fields EmptyString it = true.
Proof. unfold matches. simpl. apply includes_empty. Qed.

Lemma lower_unit_idemp (c : ascii) : lower_unit (lower_unit c) = lower_unit c.
Proof. destruct c as [[] [] [] [] [] [] [] []]; reflexivity. Qed.

Lemma toLowerCase_idemp (s : string) : toLowerCase (toLowerCase s) = toLowerCase s.
Proof.
  induction s as [|c s IH]; [done|].
  simpl. by rewrite lower_unit_idemp, IH.
Qed.

Lemma filtered_unfold (collection q : string) (data : aggregate) :
  collection ∈ collections →
  filtered collection q data =
    l ← data !! collection;
    Some (filter (λ it, matches (documented_fields collection) q it) l).
Proof.
  unfold collections. rewrite !elem_of_cons, elem_of_nil.
  intros [->|[->|[->|[->|[]]]]]; reflexivity.
Qed.

(** C6 (amended). With the empty query a view is the whole collection in
    its order. For any query the view keeps, in their order, exactly the
    records whose documented fields, joined with one space between
    neighbours and lower-cased, contain the lower-cased query; the case of
    the query's letters does not matter. *)
Theorem filtered_spec (collection q : string) (data : aggregate)
    (l : list item) :
  collection ∈ collections →
  data !! collection = Some l →
  filtered collection EmptyString data = Some l ∧
  filtered collection (toLowerCase q) data = filtered collection q data ∧
  ∃ l', filtered collection q data = Some l' ∧
        l' = filter (λ it, matches (documented_fields collection) q it) l ∧
        l' `sublist_of` l ∧
        ∀ it, it ∈ l' ↔
          it ∈ l ∧
          substring_of (toLowerCase q)
            (toLowerCase (spaced_concatenation (documented_fields collection) it)).
Proof.
  intros Hc Hl. rewrite !filtered_unfold by done. rewrite Hl. simpl.
  split; [|split].
  - f_equal. clear Hl. induction l as [|it l IH]; [done|].
    rewrite filter_cons_True by (by rewrite matches_empty).
    f_equal. apply IH.
  - unfold matches. by rewrite toLowerCase_idemp.
  - eexists. split; [reflexivity|]. split; [reflexivity|]. split.
    + apply sublist_filter.
    + intros it. rewrite list_elem_of_filter.
      unfold matches, spaced_concatenation.
      rewrite Is_true_true, includes_spec. tauto.
Qed.

Lemma filtered_spec_witness :
  filtered "exhibitors" EmptyString sampleData = Some [ex_1; ex_2] ∧
  filtered "exhibitors" (toLowerCase "NANO") sampleData
    = filtered "exhibitors" "NANO" sampleData ∧
  ∃ l', filtered "exhibitors" "NANO" sampleData = Some l' ∧
        l' = filter (λ it, matches (documented_fields "exhibitors") "NANO" it)
               [ex_1; ex_2] ∧
        l' `sublist_of` [ex_1; ex_2] ∧
        ∀ it, it ∈ l' ↔
          it ∈ [ex_1; ex_2] ∧
          substring_of (toLowerCase "NANO")
            (toLowerCase (spaced_concatenation (documented_fields "exhibitors") it)).
Proof.
  apply (filtered_spec "exhibitors" "NANO" sampleData [ex_1; ex_2]).
  - left.
  - reflexivity.
Defined.

(** C6, as stated, fails: the fields are joined with a space, not put one
    after the other. The query "lab info" selects the first sample
    exhibitor although the plain concatenation of its fields does not
    contain it, and the query "labinfo" selects nothing although the plain
    concatenation contains it. *)
Lemma filtered_plain_concatenation_counterexample :
  sampleData !! "exhibitors" = Some [ex_1; ex_2] ∧
  filtered "exhibitors" "lab info" sampleData = Some [ex_1] ∧
  ¬ substring_of (toLowerCase "lab info")
      (toLowerCase (plain_concatenation (documented_fields "exhibitors") ex_1)) ∧
  filtered "exhibitors" "labinfo" sampleData = Some [] ∧
  substring_of (toLowerCase "labinfo")
    (toLowerCase (plain_concatenation (documented_fields "exhibitors") ex_1)).
Proof.
  split; [reflexivity|]. split; [vm_compute; reflexivity|]. split.
  - rewrite <-includes_spec. vm_compute. congruence.
  - split; [vm_compute; reflexivity|]. apply includes_spec. vm_compute. reflexivity.
Qed.

(** * CSV export *)

Lemma double_quotes_spec (s : string) : double_quotes s = escape_doubling s.
Proof.
  unfold escape_doubling. induction s as [|c s IH]; [done|].
  simpl. rewrite IH. by case_decide.
Qed.

Lemma get_cell_text (native : string → string) (row : item) (k : string) :
  ToString native (default (VString EmptyString) (get row k)) = cell_text native row k.
Proof.
  unfold get, cell_text, Object_prototype, inherited_keys, inherited_text.
  destruct (row !! k) as [v|]; [done|].
  destruct (decide (k = "__proto__")) as [->|Hk].
  - by rewrite decide_True by apply list_elem_of_here.
  - destruct (decide (k ∈ object_prototype_functions)) as [Hin|Hin].
    + by rewrite decide_True by by apply list_elem_of_further.
    + rewrite decide_False; [done|]. by intros [?|?]%elem_of_cons.
Qed.

Lemma cell_text_field (native : string → string) (row : item) (k : string) :
  (row !! k = None → k ∉ inherited_keys) →
  cell_text native row k = text_of (row !! k).
Proof.
  unfold cell_text. destruct (row !! k) as [v|]; [done|].
  intros Hk. by rewrite decide_False by by apply Hk.
Qed.

Lemma csv_row_spec (native : string → string) (columns : list column) (row : item) :
  csv_row native columns row =
  csv_quoted_row ((λ c, escape_doubling (cell_text native row (key c))) <$> columns).
Proof.
  unfold csv_row, csv_quoted_row. f_equal.
  rewrite <-list_fmap_compose. apply list_fmap_ext.
  intros i c _. simpl. by rewrite double_quotes_spec, get_cell_text.
Qed.

Lemma csv_header_spec (columns : list column) :
  csv_header columns = csv_quoted_row (label <$> columns).
Proof.
  unfold csv_header, csv_quoted_row. f_equal.
  rewrite <-list_fmap_compose. by apply list_fmap_ext.
Qed.

Lemma csv_text_spec (native : string → string) (array : list item)
    (columns : list column) :
  csv_text native array columns = csv_inheriting native array columns.
Proof.
  unfold csv_text, csv_inheriting, newline.
  rewrite csv_header_spec. do 3 f_equal.
  apply list_fmap_ext. intros i row _. apply csv_row_spec.
Qed.

(** C9. The CSV text of [exportCSV] is the header row of quoted labels
    joined by commas, a newline, and one row per record of the quoted
    cells joined by commas, each quote character of a cell doubled. The
    cell of a field the record has is its value. The cell of a missing
    field is the empty string unless the key is one of the names every
    record inherits from [Object.prototype]; under such a name it is the
    text of the inherited value. Where no missing field falls under an
    inherited name the text is the documented one, and for the sample
    attendee with the columns name, company, email, type it is the
    documented two lines, spelled here with [dquote] in front of and after
    each cell. *)
Theorem exportCSV_text (native : string → string) (now : N) (array : list item)
    (columns : list column) :
  body (exportCSV native now array columns) = csv_inheriting native array columns ∧
  ((∀ row c, row ∈ array → c ∈ columns →
             row !! key c = None → key c ∉ inherited_keys) →
   body (exportCSV native now array columns) = csv_spec array columns) ∧
  body (exportCSV native now [at_1] attendee_columns) =
    String dquote "Name" +:+ String dquote "," +:+
    String dquote "Company" +:+ String dquote "," +:+
    String dquote "Email" +:+ String dquote "," +:+
    String dquote "Type" +:+ String dquote newline +:+
    String dquote "Ali Reza" +:+ String dquote "," +:+
    String dquote "NanoTech Lab" +:+ String dquote "," +:+
    String dquote "ali@example.com" +:+ String dquote "," +:+
    String dquote "Visitor" +:+ String dquote EmptyString.
Proof.
  split; [apply csv_text_spec|]. split; [|vm_compute; reflexivity].
  intros Hown. unfold exportCSV, body. rewrite csv_text_spec.
  unfold csv_inheriting, csv_spec. do 3 f_equal.
  apply list_fmap_ext. intros i row Hrow%list_elem_of_lookup_2. f_equal.
  apply list_fmap_ext. intros j c Hc%list_elem_of_lookup_2. simpl. f_equal.
  apply cell_text_field. by apply Hown.
Qed.

(** The documented text is not the text of every export: under the key
    [__proto__], which the sample attendee does not hold, the cell is the
    text of [Object.prototype] and not the empty string. *)
Lemma exportCSV_inherited_counterexample :
  at_1 !! "__proto__" = None ∧
  (∀ native now,
     body (exportCSV native now [at_1] [Column "__proto__" "Prototype"]) =
     quoted "Prototype" +:+ newline +:+ quoted "[object Object]") ∧
  csv_spec [at_1] [Column "__proto__" "Prototype"] =
    quoted "Prototype" +:+ newline +:+ quoted EmptyString ∧
  (∀ native now,
     body (exportCSV native now [at_1] [Column "__proto__" "Prototype"]) ≠
     csv_spec [at_1] [Column "__proto__" "Prototype"]).
Proof.
  split; [vm_compute; reflexivity|].
  split; [intros; vm_compute; reflexivity|].
  split; [vm_compute; reflexivity|].
  intros native now. vm_compute. discriminate.
Qed.

(** Under the key [constructor] the cell is the platform's text of the
    function [Object], and a field of that name held by the record comes
    first. *)
Example exportCSV_constructor (native : string → string) (now : N) :
  body (exportCSV native now [at_1] [Column "constructor" "Made by"]) =
    quoted "Made by" +:+ newline +:+ quoted (double_quotes (native "constructor")) ∧
  body (exportCSV native now [{[ "constructor" := "ACME" ]}]
          [Column "constructor" "Made by"]) =
    quoted "Made by" +:+ newline +:+ quoted "ACME".
Proof. split; vm_compute; reflexivity. Qed.

(** * The JSON codec *)

Section json_codec.
Import JSON.

Lemma quote_unit_parse (c : ascii) (s : string) :
  parse_chars (quote_unit c +:+ s) = cons_unit c (parse_chars s).
Proof.
  destruct c as [[] [] [] [] [] [] [] []]; reflexivity.
Qed.

Lemma quote_units_parse (str rest : string) :
  parse_chars (quote_units str +:+ String dquote rest) = Ret (str, rest).
Proof.
  induction str as [|c str IH]; [reflexivity|].
  cbn [quote_units]. rewrite string_app_assoc, quote_unit_parse, IH. reflexivity.
Qed.

(** Every successful step of the parser consumes text. *)
Local Abbreviation len := String.length.

Lemma skip_ws_length (s : string) : len (skip_ws s) ≤ len s.
Proof.
  induction s as [|c s IH]; [done|]. simpl. destruct (is_ws c); simpl; lia.
Qed.

Lemma skip_ws_cons_length (s r : string) (c : ascii) :
  skip_ws s = String c r → len r < len s.
Proof. intros H. pose proof (skip_ws_length s) as Hl. rewrite H in Hl. simpl in Hl. lia. Qed.

Lemma cons_unit_Ret (c : ascii) (m : outcome (string * string)) str r :
  cons_unit c m = Ret (str, r) → ∃ str', m = Ret (str', r) ∧ str = String c str'.
Proof. destruct m as [[str' r']| | |]; simpl; [|done..]. intros [= <- <-]. eauto. Qed.

Lemma cons_unit_NoFuel (c : ascii) (m : outcome (string * string)) :
  cons_unit c m = NoFuel → m = NoFuel.
Proof. by destruct m as [[str' r']| | |]. Qed.

Lemma parse_chars_length (s str r : string) :
  parse_chars s = Ret (str, r) → len r < len s.
Proof.
  remember (len s) as n eqn:Hn. revert s str r Hn.
  induction n as [n IH] using lt_wf_ind. intros s str r -> H.
  destruct s as [|c s]; [done|].
  assert (∀ s0 str0 r0, len s0 < len (String c s) →
            parse_chars s0 = Ret (str0, r0) → len r0 < len s0) as Hrec
    by (intros; eapply IH; eauto).
  clear IH. simpl in H.
  repeat case_match; simplify_eq/=; try lia;
    apply cons_unit_Ret in H as (str' & H & ->);
    apply Hrec in H; simpl in *; lia.
Qed.

Lemma parse_chars_fuel (s : string) : parse_chars s ≠ NoFuel.
Proof.
  remember (len s) as n eqn:Hn. revert s Hn.
  induction n as [n IH] using lt_wf_ind. intros s -> H.
  destruct s as [|c s]; [done|].
  assert (∀ s0, len s0 < len (String c s) → parse_chars s0 ≠ NoFuel) as Hrec
    by (intros; eapply IH; eauto).
  clear IH. simpl in H.
  repeat case_match; simplify_eq/=;
    apply cons_unit_NoFuel in H; (eapply Hrec; [|exact H]); simpl; lia.
Qed.

Lemma span_digits_length (s ds r : string) :
  span_digits s = (ds, r) → len r ≤ len s.
Proof.
  revert ds r. induction s as [|c s IH]; intros ds r H; simpl in H.
  - by simplify_eq.
  - destruct (is_digit c); [|simplify_eq; done].
    destruct (span_digits s) as [ds' r'] eqn:E. simplify_eq.
    specialize (IH _ _ eq_refl). simpl. lia.
Qed.

Lemma parse_exponent_length (acc s lit r : string) :
  parse_exponent acc s = Some (lit, r) → len r ≤ len s.
Proof.
  unfold parse_exponent. intros H.
  repeat (case_match; simplify_eq/=); try lia;
    match goal with
    | E : span_digits _ = _ |- _ => apply span_digits_length in E; simpl in *; lia
    end.
Qed.

Lemma parse_fraction_length (acc s lit r : string) :
  parse_fraction acc s = Some (lit, r) → len r ≤ len s.
Proof.
  unfold parse_fraction. intros H.
  repeat (case_match; simplify_eq/=); try lia;
    repeat match goal with
    | E : span_digits _ = _ |- _ => apply span_digits_length in E
    | E : parse_exponent _ _ = _ |- _ => apply parse_exponent_length in E
    end; simpl in *; lia.
Qed.

Lemma parse_integer_length (acc s lit r : string) :
  parse_integer acc s = Some (lit, r) → len r < len s.
Proof.
  unfold parse_integer. intros H.
  repeat (case_match; simplify_eq/=).
  all: repeat match goal with
    | E : span_digits _ = _ |- _ => apply span_digits_length in E
    | E : parse_fraction _ _ = _ |- _ => apply parse_fraction_length in E
    end.
  all: simpl in *; lia.
Qed.

Lemma parse_number_length (s lit r : string) :
  parse_number s = Some (lit, r) → len r < len s.
Proof.
  unfold parse_number. intros H.
  destruct s as [|c s1]; [done|].
  destruct (c =? "-")%char; apply parse_integer_length in H; simpl in *; lia.
Qed.

Lemma strip_prefix_length (word s r : string) :
  strip_prefix word s = Some r → len s = len word + len r.
Proof.
  revert s. induction word as [|a word IH]; intros s H; simpl in H.
  - by simplify_eq.
  - destruct s as [|b s]; [done|]. destruct (a =? b)%char; [|done].
    apply IH in H. simpl. lia.
Qed.

Lemma parse_atom_length (s : string) v r :
  parse_atom s = Ret (v, r) → len r < len s.
Proof.
  unfold parse_atom. intros H.
  destruct (strip_prefix "null" s) as [r1|] eqn:E1.
  { injection H as <- <-. apply strip_prefix_length in E1. simpl in E1. lia. }
  destruct (strip_prefix "true" s) as [r2|] eqn:E2.
  { injection H as <- <-. apply strip_prefix_length in E2. simpl in E2. lia. }
  destruct (strip_prefix "false" s) as [r3|] eqn:E3.
  { injection H as <- <-. apply strip_prefix_length in E3. simpl in E3. lia. }
  destruct (parse_number s) as [[lit r4]|] eqn:E4; [|done].
  injection H as <- <-. by apply parse_number_length in E4.
Qed.

Lemma parse_atom_fuel (s : string) : parse_atom s ≠ NoFuel.
Proof.
  unfold parse_atom.
  destruct (strip_prefix "null" s); [done|].
  destruct (strip_prefix "true" s); [done|].
  destruct (strip_prefix "false" s); [done|].
  by destruct (parse_number s) as [[??]|].
Qed.

Local Arguments parse_atom : simpl never.
Local Arguments parse_chars : simpl never.
Local Arguments skip_ws : simpl never.

Lemma bind_Ret {A B} (m : outcome A) (f : A → outcome B) (b : B) :
  m ≫= f = Ret b → ∃ a, m = Ret a ∧ f a = Ret b.
Proof. destruct m; [|done..]. eauto. Qed.

Lemma bind_NoFuel {A B} (m : outcome A) (f : A → outcome B) :
  m ≫= f = NoFuel → m = NoFuel ∨ ∃ a, m = Ret a ∧ f a = NoFuel.
Proof. destruct m; [|done..|by left]. eauto. Qed.

Ltac invert_parse :=
  repeat first
    [ progress simplify_eq/=
    | match goal with
      | H : _ ≫= _ = Ret _ |- _ => apply bind_Ret in H as ([? ?] & ? & ?)
      end
    | case_match ].

Ltac length_facts :=
  repeat match goal with
    | E : skip_ws _ = String _ _ |- _ => apply skip_ws_cons_length in E
    | IH : (∀ s v r, parse_value ?n s = Ret (v, r) → _),
      E : parse_value ?n _ = Ret _ |- _ => apply IH in E
    | IH : (∀ s v r, parse_elements ?n s = Ret (v, r) → _),
      E : parse_elements ?n _ = Ret _ |- _ => apply IH in E
    | IH : (∀ s v r, parse_members ?n s = Ret (v, r) → _),
      E : parse_members ?n _ = Ret _ |- _ => apply IH in E
    | E : parse_chars _ = Ret _ |- _ => apply parse_chars_length in E
    | E : parse_atom _ = Ret _ |- _ => apply parse_atom_length in E
    end.

Lemma parse_length (n : nat) :
  (∀ s v r, parse_value n s = Ret (v, r) → len r < len s) ∧
  (∀ s vs r, parse_elements n s = Ret (vs, r) → len r < len s) ∧
  (∀ s kvs r, parse_members n s = Ret (kvs, r) → len r < len s).
Proof.
  induction n as [|n (IHv & IHe & IHm)]; [done|].
  split; [|split]; intros s x r H; simpl in H.
  all: invert_parse.
  all: length_facts.
  all: simpl in *; lia.
Qed.

Ltac invert_fuel :=
  repeat first
    [ progress simplify_eq/=
    | match goal with
      | H : _ ≫= _ = NoFuel |- _ =>
          apply bind_NoFuel in H as [?|([? ?] & ? & ?)]
      end
    | case_match ].

Lemma parse_fuel (n : nat) :
  (∀ s, 2 * len s < n → parse_value n s ≠ NoFuel) ∧
  (∀ s, 2 * len s + 2 ≤ n → parse_elements n s ≠ NoFuel) ∧
  (∀ s, 2 * len s + 2 ≤ n → parse_members n s ≠ NoFuel).
Proof.
  induction n as [|n (IHv & IHe & IHm)].
  { split; [|split]; intros s Hn; simpl in Hn; lia. }
  destruct (parse_length n) as (Lv & Le & Lm).
  split; [|split]; intros s Hn H; simpl in H.
  all: invert_fuel.
  all: length_facts.
  all: try match goal with
    | E : parse_chars _ = NoFuel |- _ => by apply parse_chars_fuel in E
    | E : parse_atom _ = NoFuel |- _ => by apply parse_atom_fuel in E
    end.
  all: match goal with
    | E : parse_value _ _ = NoFuel |- _ => refine (IHv _ _ E)
    | E : parse_elements _ _ = NoFuel |- _ => refine (IHe _ _ E)
    | E : parse_members _ _ = NoFuel |- _ => refine (IHm _ _ E)
    end.
  all: simpl in *; lia.
Qed.

Lemma parse_value_total (text : string) :
  parse_value (2 * len text + 1) text ≠ NoFuel.
Proof. apply parse_fuel. lia. Qed.

(** Round trip: what [stringify] writes, [parse] reads back. *)

Lemma parse_value_S n s :
  parse_value (S n) s =
    match skip_ws s with
    | EmptyString => Throw
    | String c r =>
        if (c =? "{")%char then
          match skip_ws r with
          | EmptyString => Throw
          | String c' r' =>
              if (c' =? "}")%char then Ret (JObj ∅, r')
              else
                '(kvs, rest) ← parse_members n (String c' r');
                Ret (JObj (list_to_map (reverse kvs)), rest)
          end
        else if (c =? "[")%char then
          match skip_ws r with
          | EmptyString => Throw
          | String c' r' =>
              if (c' =? "]")%char then Ret (JArr [], r')
              else
                '(vs, rest) ← parse_elements n (String c' r');
                Ret (JArr vs, rest)
          end
        else if (c =? dquote)%char then
          '(str, rest) ← parse_chars r; Ret (JStr str, rest)
        else parse_atom (String c r)
    end.
Proof. reflexivity. Qed.

Lemma parse_elements_S n s :
  parse_elements (S n) s =
    '(v, r) ← parse_value n s;
    match skip_ws r with
    | EmptyString => Throw
    | String c r' =>
        if (c =? ",")%char then
          '(vs, rest) ← parse_elements n r'; Ret (v :: vs, rest)
        else if (c =? "]")%char then Ret ([v], r')
        else Throw
    end.
Proof. reflexivity. Qed.

Lemma parse_members_S n s :
  parse_members (S n) s =
    match skip_ws s with
    | EmptyString => Throw
    | String c r =>
        if (c =? dquote)%char then
          '(k, r1) ← parse_chars r;
          match skip_ws r1 with
          | EmptyString => Throw
          | String c1 r2 =>
              if (c1 =? ":")%char then
                '(v, r3) ← parse_value n r2;
                match skip_ws r3 with
                | EmptyString => Throw
                | String c3 r4 =>
                    if (c3 =? ",")%char then
                      '(kvs, rest) ← parse_members n r4;
                      Ret ((k, v) :: kvs, rest)
                    else if (c3 =? "}")%char then Ret ([(k, v)], r4)
                    else Throw
                end
              else Throw
          end
        else Throw
    end.
Proof. reflexivity. Qed.

Lemma skip_ws_head (c : ascii) (s : string) :
  is_ws c = false → skip_ws (String c s) = String c s.
Proof. intros H. unfold skip_ws. by rewrite H. Qed.

Lemma bind_fuel {A B} (m : outcome A) (f : A → outcome B) :
  m ≫= f ≠ NoFuel → m ≠ NoFuel.
Proof. by destruct m. Qed.

Lemma bind_Ret_l {A B} (a : A) (f : A → outcome B) : Ret a ≫= f = f a.
Proof. reflexivity. Qed.

Lemma join_one (sep x : string) : join sep [x] = x.
Proof. reflexivity. Qed.

Lemma join_more (sep x y : string) (l : list string) :
  join sep (x :: y :: l) = x +:+ sep +:+ join sep (y :: l).
Proof. reflexivity. Qed.

Lemma roundtrips_str (s : string) : roundtrips (JStr s).
Proof.
  split.
  - exists dquote, (quote_units s +:+ String dquote EmptyString). done.
  - intros [|n] rest Hf; [done|]. clear Hf.
    rewrite parse_value_S. cbn [stringify]. unfold QuoteJSONString.
    rewrite string_app_cons, skip_ws_head by done.
    change (dquote =? "{")%char with false. change (dquote =? "[")%char with false.
    change (dquote =? dquote)%char with true. cbv iota.
    rewrite string_app_assoc, string_app_cons, string_app_nil_l, quote_units_parse.
    reflexivity.
Qed.

Lemma parse_elements_roundtrip (l : list json) (n : nat) (rest : string) :
  l ≠ [] → Forall roundtrips l →
  parse_elements n (join "," (stringify <$> l) +:+ "]" +:+ rest) ≠ NoFuel →
  parse_elements n (join "," (stringify <$> l) +:+ "]" +:+ rest) = Ret (l, rest).
Proof.
  revert n. induction l as [|v l IH]; intros n Hne Hall; [done|].
  apply Forall_cons in Hall as [Hv Hl]. destruct n as [|n]; [done|].
  rewrite parse_elements_S. destruct l as [|w l].
  - rewrite fmap_cons, fmap_nil, join_one. intros Hf.
    rewrite (rt_parse _ Hv) in Hf |- * by (by apply bind_fuel in Hf).
    rewrite bind_Ret_l. reflexivity.
  - rewrite !fmap_cons, join_more, <-fmap_cons, !string_app_assoc. intros Hf.
    rewrite (rt_parse _ Hv) in Hf |- * by (by apply bind_fuel in Hf).
    rewrite bind_Ret_l in Hf |- *.
    rewrite string_app_cons, string_app_nil_l, skip_ws_head in Hf |- * by done.
    change ("," =? ",")%char with true in Hf |- *. cbv iota in Hf |- *.
    rewrite IH; [done|done|done|]. by apply bind_fuel in Hf.
Qed.

Lemma stringify_arr_app (l : list json) (rest : string) :
  stringify (JArr l) +:+ rest =
  String "[" (join "," (stringify <$> l) +:+ "]" +:+ rest).
Proof.
  cbn [stringify].
  by rewrite string_app_cons, string_app_nil_l, string_app_cons, string_app_assoc.
Qed.

Lemma roundtrips_arr (l : list json) : Forall roundtrips l → roundtrips (JArr l).
Proof.
  intros Hall. split.
  - by exists "["%char, (join "," (stringify <$> l) +:+ "]").
  - intros [|n] rest Hf; [done|]. revert Hf.
    rewrite parse_value_S, stringify_arr_app, skip_ws_head by done.
    change ("[" =? "{")%char with false. change ("[" =? "[")%char with true.
    cbv iota.
    destruct l as [|v l]; [reflexivity|].
    destruct (rt_head _ (Forall_inv Hall)) as (c & s0 & Hc & Hws & Hb).
    assert (∃ tail, join "," (stringify <$> v :: l) +:+ "]" +:+ rest = String c tail)
      as [tail Htail].
    { destruct l; [rewrite fmap_cons, fmap_nil, join_one
                  |rewrite !fmap_cons, join_more, string_app_assoc];
        rewrite Hc, string_app_cons; eauto. }
    rewrite Htail, skip_ws_head, Hb, <-Htail by done. intros Hf.
    rewrite parse_elements_roundtrip in Hf |- *;
      [done|done|done|by apply bind_fuel in Hf|done|done|by apply bind_fuel in Hf].
Qed.

Lemma member_text_app (k : string) (v : json) (tail : string) :
  member_text (k, v) +:+ tail =
  String dquote (quote_units k +:+ String dquote (String ":" (stringify v +:+ tail))).
Proof.
  unfold member_text, QuoteJSONString. simpl.
  by rewrite !string_app_cons, !string_app_assoc.
Qed.

Lemma parse_members_roundtrip (kvs : list (string * json)) (n : nat) (rest : string) :
  kvs ≠ [] → Forall (λ kv, roundtrips kv.2) kvs →
  parse_members n (join "," (member_text <$> kvs) +:+ "}" +:+ rest) ≠ NoFuel →
  parse_members n (join "," (member_text <$> kvs) +:+ "}" +:+ rest) = Ret (kvs, rest).
Proof.
  revert n. induction kvs as [|[k v] kvs IH]; intros n Hne Hall; [done|].
  apply Forall_cons in Hall as [Hv Hl]. simpl in Hv.
  destruct n as [|n]; [done|].
  rewrite parse_members_S. destruct kvs as [|kv kvs].
  - rewrite fmap_cons, fmap_nil, join_one, member_text_app.
    rewrite skip_ws_head by done.
    change (dquote =? dquote)%char with true. cbv iota.
    rewrite quote_units_parse, bind_Ret_l, skip_ws_head by done.
    change (":" =? ":")%char with true. cbv iota. intros Hf.
    rewrite (rt_parse _ Hv) in Hf |- * by (by apply bind_fuel in Hf).
    reflexivity.
  - rewrite !fmap_cons, join_more, <-fmap_cons, string_app_assoc, member_text_app.
    rewrite skip_ws_head by done.
    change (dquote =? dquote)%char with true. cbv iota.
    rewrite quote_units_parse, bind_Ret_l, skip_ws_head by done.
    change (":" =? ":")%char with true. cbv iota.
    rewrite string_app_assoc. intros Hf.
    rewrite (rt_parse _ Hv) in Hf |- * by (by apply bind_fuel in Hf).
    rewrite bind_Ret_l in Hf |- *.
    rewrite string_app_cons, string_app_nil_l, skip_ws_head in Hf |- * by done.
    change ("," =? ",")%char with true in Hf |- *. cbv iota in Hf |- *.
    rewrite IH; [done|done|done|]. by apply bind_fuel in Hf.
Qed.

Lemma stringify_obj (m : gmap string json) :
  stringify (JObj m) = "{" +:+ join "," (member_text <$> map_to_list m) +:+ "}".
Proof.
  cbn [stringify]. do 3 f_equal. rewrite map_fold_foldr.
  induction (map_to_list m) as [|[k v] l IH]; [done|].
  simpl. by rewrite IH.
Qed.

Lemma list_to_map_rev_to_list (m : gmap string json) :
  list_to_map (reverse (map_to_list m)) = m.
Proof.
  rewrite <-(list_to_map_to_list m) at 2. symmetry.
  apply list_to_map_proper; [apply NoDup_fst_map_to_list|].
  symmetry. apply reverse_Permutation.
Qed.

Lemma roundtrips_obj (m : gmap string json) :
  map_Forall (λ _ v, roundtrips v) m → roundtrips (JObj m).
Proof.
  intros Hall. split.
  - rewrite stringify_obj. by eexists "{"%char, _.
  - intros [|n] rest Hf; [done|]. revert Hf.
    rewrite parse_value_S, stringify_obj.
    rewrite string_app_cons, string_app_nil_l, string_app_cons, string_app_assoc.
    rewrite skip_ws_head by done.
    change ("{" =? "{")%char with true. cbv iota.
    assert (Forall (λ kv, roundtrips kv.2) (map_to_list m)) as Hl.
    { apply Forall_forall. intros [k v] Hin%elem_of_map_to_list. by eapply Hall. }
    pose proof (list_to_map_rev_to_list m) as Hm.
    destruct (map_to_list m) as [|[k v] kvs] eqn:E.
    { simpl in Hm. subst m. reflexivity. }
    assert (∃ tail, join "," (member_text <$> (k, v) :: kvs) +:+ "}" +:+ rest
                    = String dquote tail) as [tail Htail].
    { destruct kvs; [rewrite fmap_cons, fmap_nil, join_one
                    |rewrite !fmap_cons, join_more, string_app_assoc];
        rewrite member_text_app; eauto. }
    rewrite Htail, skip_ws_head by done.
    change (dquote =? "}")%char with false. cbv iota. rewrite <-Htail. intros Hf.
    rewrite parse_members_roundtrip in Hf |- *;
      [|done|done|by apply bind_fuel in Hf|done|done|by apply bind_fuel in Hf].
    rewrite bind_Ret_l. by rewrite Hm.
Qed.

Lemma parse_stringify (v : json) : roundtrips v → parse (stringify v) = Ret v.
Proof.
  intros Hv. unfold parse.
  assert (parse_value (2 * len (stringify v) + 1) (stringify v)
          = Ret (v, EmptyString)) as ->; [|reflexivity].
  pose proof (parse_value_total (stringify v)) as Hf.
  pose proof (rt_parse _ Hv (2 * len (stringify v) + 1) EmptyString) as Hp.
  rewrite string_app_nil_r in Hp. by apply Hp.
Qed.

End json_codec.

(** * Persistence *)

Lemma parse_never_out_of_fuel (text : string) : JSON.parse text ≠ NoFuel.
Proof.
  unfold JSON.parse. intros H.
  apply bind_NoFuel in H as [H|([v rest] & _ & H)].
  - by apply parse_value_total in H.
  - simpl in H. by destruct (JSON.skip_ws rest).
Qed.

Lemma roundtrips_item (it : item) : roundtrips (item_json it).
Proof.
  apply roundtrips_obj. intros k v Hv. rewrite lookup_fmap in Hv.
  destruct (it !! k); simplify_eq/=. apply roundtrips_str.
Qed.

Lemma roundtrips_aggregate (d : aggregate) : roundtrips (aggregate_json d).
Proof.
  apply roundtrips_obj. intros k v Hv. rewrite lookup_fmap in Hv.
  destruct (d !! k) as [l|]; simplify_eq/=.
  apply roundtrips_arr, Forall_fmap, Forall_forall.
  intros it _. apply roundtrips_item.
Qed.

Lemma stringify_aggregate_nonempty (d : aggregate) :
  ∃ tail, JSON.stringify (aggregate_json d) = String "{" tail.
Proof.
  unfold aggregate_json. rewrite stringify_obj, string_app_cons. eauto.
Qed.

Global Instance JStr_inj : Inj (=) (=) JStr.
Proof. by intros s1 s2 [= ->]. Qed.

Global Instance item_json_inj : Inj (=) (=) item_json.
Proof.
  intros it1 it2 [= H]. by apply (inj (fmap JStr)) in H.
Qed.

Global Instance aggregate_json_inj : Inj (=) (=) aggregate_json.
Proof.
  assert (Inj (=) (=) (λ l : list item, JArr (item_json <$> l))) as Harr.
  { intros l1 l2 [= H]. by apply (inj (fmap item_json)) in H. }
  intros d1 d2 [= H]. by apply (inj (fmap _)) in H.
Qed.

Lemma loadFromStorage_cases (localStorage : gmap string string) :
  loadFromStorage localStorage =
    match localStorage !! STORAGE_KEY with
    | None => Ret (aggregate_json sampleData)
    | Some raw =>
        match JSON.parse raw with
        | Throw => Ret (aggregate_json sampleData)
        | r => r
        end
    end.
Proof.
  unfold loadFromStorage. destruct (localStorage !! STORAGE_KEY) as [[|c raw]|];
    [reflexivity| |reflexivity].
  unfold try_catch. by destruct (JSON.parse (String c raw)).
Qed.

(** C4. [loadFromStorage] never throws: without a persisted value, and
    with a persisted text that [JSON.parse] rejects, it returns the
    bundled sample aggregate, which has 2 exhibitors, 2 booths, 1 event
    and 1 attendee. *)
Theorem loadFromStorage_fallback (localStorage : gmap string string) :
  loadFromStorage localStorage ≠ Throw ∧
  loadFromStorage localStorage ≠ NoFuel ∧
  (localStorage !! STORAGE_KEY = None →
   loadFromStorage localStorage = Ret (aggregate_json sampleData)) ∧
  (∀ raw, localStorage !! STORAGE_KEY = Some raw → JSON.parse raw = Throw →
   loadFromStorage localStorage = Ret (aggregate_json sampleData)) ∧
  length <$> sampleData !! "exhibitors" = Some 2 ∧
  length <$> sampleData !! "booths" = Some 2 ∧
  length <$> sampleData !! "events" = Some 1 ∧
  length <$> sampleData !! "attendees" = Some 1 ∧
  size sampleData = 4.
Proof.
  rewrite loadFromStorage_cases.
  split; [|split; [|split; [|split]]].
  - destruct (localStorage !! STORAGE_KEY) as [raw|]; [|done].
    by destruct (JSON.parse raw).
  - destruct (localStorage !! STORAGE_KEY) as [raw|]; [|done].
    pose proof (parse_never_out_of_fuel raw). by destruct (JSON.parse raw).
  - by intros ->.
  - by intros raw -> ->.
  - repeat split; reflexivity.
Qed.

Example loadFromStorage_empty_storage :
  loadFromStorage ∅ = Ret (aggregate_json sampleData).
Proof. reflexivity. Qed.

Example loadFromStorage_corrupt_text :
  JSON.parse "{oops" = Throw ∧
  loadFromStorage {[ STORAGE_KEY := "{oops" ]} = Ret (aggregate_json sampleData).
Proof. split; vm_compute; reflexivity. Qed.

Example loadFromStorage_foreign_value :
  loadFromStorage {[ STORAGE_KEY := "[1, true]" ]}
  = Ret (JArr [JNum "1"; JBool true]).
Proof. vm_compute. reflexivity. Qed.

(** C5. Saving an aggregate of records with string fields and loading it
    again returns that aggregate: [JSON.parse] reads back what
    [JSON.stringify] wrote, whatever the storage held before, and the
    JSON value determines the aggregate. *)
Theorem save_load_roundtrip (d : aggregate) (localStorage : gmap string string) :
  loadFromStorage (saveToStorage (aggregate_json d) localStorage)
    = Ret (aggregate_json d) ∧
  ∀ d', loadFromStorage (saveToStorage (aggregate_json d) localStorage)
          = Ret (aggregate_json d') → d' = d.
Proof.
  assert (loadFromStorage (saveToStorage (aggregate_json d) localStorage)
          = Ret (aggregate_json d)) as Hload.
  { rewrite loadFromStorage_cases. unfold saveToStorage.
    rewrite lookup_insert_eq, parse_stringify; [done|].
    apply roundtrips_aggregate. }
  split; [done|].
  intros d' Hd'. rewrite Hload in Hd'.
  assert (aggregate_json d' = aggregate_json d) as Heq by congruence.
  by apply (inj aggregate_json) in Heq.
Qed.

Example save_load_sample :
  loadFromStorage (saveToStorage (aggregate_json sampleData) ∅)
  = Ret (aggregate_json sampleData).
Proof. vm_compute. reflexivity. Qed.

(** * The documented scenarios, on the sample data *)

Example scenario_add_attendee :
  ∃ d l, submitAttendee "0.4fzyo82mvyr"
           (list_to_map [("name", "Jane Doe"); ("company", "Acme");
                         ("email", "jane@acme.com"); ("type", "Visitor")])
           sampleData = Some d ∧
         d !! "attendees" = Some l ∧ length l = 2 ∧
         (λ it : item, it !! "name") <$> reverse l
           = [Some "Jane Doe"; Some "Ali Reza"].
Proof. eexists _, _. repeat split; vm_compute; reflexivity. Qed.

Example scenario_update_then_filter :
  (updateItem "booths" "b-A1" {[ "size" := "4x4" ]} sampleData
     ≫= filtered "booths" "4x4")
  = Some [spread b_A1 {[ "size" := "4x4" ]}].
Proof. vm_compute. reflexivity. Qed.

Example scenario_remove_then_filter :
  (removeItem "exhibitors" "ex-1" sampleData ≫= filtered "exhibitors" "NanoTech")
  = Some [].
Proof. vm_compute. reflexivity. Qed.

Example parse_later_member_wins :
  JSON.parse ("{" +:+ JSON.QuoteJSONString "a" +:+ ":1," +:+
              JSON.QuoteJSONString "a" +:+ ":2}")
  = Ret (JObj {[ "a" := JNum "2" ]}).
Proof. vm_compute. reflexivity. Qed.

Example parse_accepts_white_space_and_escapes :
  JSON.parse (" [ " +:+ String dquote (String backslash "u0041") +:+
              String backslash "n" +:+ String dquote " , null ] ")
  = Ret (JArr [JStr (String "A" newline); JNull]).
Proof. vm_compute. reflexivity. Qed.

Example parse_rejects_trailing_comma : JSON.parse "[1,]" = Throw.
Proof. vm_compute. reflexivity. Qed.

Example parse_rejects_leading_zero : JSON.parse "01" = Throw.
Proof. vm_compute. reflexivity. Qed.

(** * Further properties of the CRUD helpers *)

Lemma crud_modify (collection : string) (g : aggregate → option aggregate) :
  crud collection g →
  ∃ f : list item → list item,
    ∀ d, g d = l ← d !! collection; Some (<[collection := f l]> d).
Proof. intros [c it|c id patch|c id]; eexists; intros d; reflexivity. Qed.

Lemma crud_well_formed (collection : string)
    (g : aggregate → option aggregate) (d : aggregate) :
  crud collection g → collection ∈ collections → well_formed d →
  ∃ d', g d = Some d' ∧ well_formed d' ∧ dom d' = dom d.
Proof.
  intros Hg Hc Hwf. destruct (crud_modify _ _ Hg) as [f Hf].
  destruct (Hwf _ Hc) as [l Hl]. exists (<[collection := f l]> d).
  rewrite Hf, Hl. split; [done|].
  assert (dom (<[collection := f l]> d) = dom d) as Hdom.
  { apply dom_insert_lookup_L. by rewrite Hl. }
  split; [|done].
  intros c Hin. apply elem_of_dom. rewrite Hdom. apply elem_of_dom. by apply Hwf.
Qed.

Lemma well_formed_sampleData : well_formed sampleData.
Proof.
  intros c Hc. unfold collections in Hc.
  repeat (apply elem_of_cons in Hc as [->|Hc]; [by eexists|]).
  by apply elem_of_nil in Hc.
Qed.

(** X1. On an aggregate that holds the four collections, a CRUD helper
    called on one of them throws nothing, and its result holds the same
    collections. *)
Theorem crud_keeps_collections (collection : string)
    (g : aggregate → option aggregate) (d : aggregate) :
  crud collection g → collection ∈ collections → well_formed d →
  ∃ d', g d = Some d' ∧ well_formed d' ∧ dom d' = dom d.
Proof. apply crud_well_formed. Qed.

Lemma crud_keeps_collections_witness :
  ∃ d', removeItem "booths" "b-A1" sampleData = Some d' ∧ well_formed d' ∧
        dom d' = dom sampleData.
Proof.
  apply (crud_keeps_collections "booths" (removeItem "booths" "b-A1") sampleData).
  - apply crud_remove.
  - right; left.
  - apply well_formed_sampleData.
Defined.

(** X2. Helpers called on different collections commute. *)
Theorem crud_commute (c1 c2 : string) (g1 g2 : aggregate → option aggregate)
    (d : aggregate) :
  crud c1 g1 → crud c2 g2 → c1 ≠ c2 →
  g1 d ≫= g2 = g2 d ≫= g1.
Proof.
  intros [f1 H1]%crud_modify [f2 H2]%crud_modify Hne.
  rewrite H1, H2.
  destruct (d !! c1) as [l1|] eqn:E1, (d !! c2) as [l2|] eqn:E2; simpl.
  - rewrite H1, H2, !lookup_insert_ne, E1, E2 by done. simpl.
    by rewrite insert_insert_ne.
  - by rewrite H2, lookup_insert_ne, E2.
  - by rewrite H1, lookup_insert_ne, E1.
  - done.
Qed.

Lemma crud_commute_witness :
  addItem "booths" at_1 sampleData ≫= removeItem "events" "ev-1"
  = removeItem "events" "ev-1" sampleData ≫= addItem "booths" at_1.
Proof.
  apply (crud_commute "booths" "events"); [apply crud_add|apply crud_remove|done].
Defined.

Lemma ids_filter_sublist (P : item → Prop) `{!∀ it, Decision (P it)} (l : list item) :
  ids (filter P l) `sublist_of` ids l.
Proof.
  unfold ids. induction l as [|it l IH]; [done|].
  rewrite filter_cons. case_decide; simpl.
  - by apply sublist_skip.
  - by apply sublist_cons.
Qed.

Lemma ids_update (id : string) (patch : item) (l : list item) :
  patch !! "id" = None ∨ patch !! "id" = Some id →
  ids ((λ it, if decide (has_id id it) then spread it patch else it) <$> l) = ids l.
Proof.
  intros Hp. unfold ids. rewrite <-list_fmap_compose. apply list_fmap_ext.
  intros i it _. simpl. case_decide as Hid; [|done].
  destruct Hp as [Hp|Hp].
  - by rewrite spread_lookup_other.
  - by rewrite (spread_lookup_patch _ _ _ _ Hp).
Qed.

Lemma count_id_NoDup (id : string) (l : list item) :
  NoDup (ids l) → count_id id l ≤ 1.
Proof.
  induction l as [|it l IH]; [unfold count_id; simpl; lia|].
  unfold ids. rewrite fmap_cons, NoDup_cons. intros [Hnotin Hnd].
  unfold count_id. rewrite filter_cons. case_decide as Hid; simpl.
  - assert (count_id id l = 0) as H0; [|unfold count_id in H0; lia].
    apply count_id_0. intros it' Hin Hid'. apply Hnotin.
    unfold has_id in Hid, Hid'. rewrite Hid, <-Hid'.
    by apply (list_elem_of_fmap_2 (λ it, it !! "id")).
  - by apply IH.
Qed.

(** X3. Distinct ids are kept: if the records of a collection carry
    pairwise different ids, they still do after [removeItem], after
    [updateItem] with a patch that has no id field or repeats the id, and
    after [addItem] of a record whose id none of them carries; and then
    [removeItem] of an id that occurs takes away exactly one record. *)
Theorem crud_keeps_ids_distinct (collection id : string) (it patch : item)
    (d : aggregate) (l : list item) :
  d !! collection = Some l → NoDup (ids l) →
  (∃ l', removeItem collection id d = Some (<[collection := l']> d) ∧
         NoDup (ids l') ∧
         ((∃ it', it' ∈ l ∧ has_id id it') → S (length l') = length l)) ∧
  (patch !! "id" = None ∨ patch !! "id" = Some id →
   ∃ l', updateItem collection id patch d = Some (<[collection := l']> d) ∧
         ids l' = ids l) ∧
  (it !! "id" ∉ ids l →
   ∃ l', addItem collection it d = Some (<[collection := l']> d) ∧
         NoDup (ids l')).
Proof.
  intros Hl Hnd. split; [|split].
  - eexists. unfold removeItem. rewrite Hl. simpl. split; [done|]. split.
    + apply (sublist_NoDup _ (ids l)); [done|apply ids_filter_sublist].
    + intros (it' & Hin & Hid).
      pose proof (filter_split_length id l) as Hlen.
      pose proof (count_id_NoDup id l Hnd) as Hle.
      apply list_elem_of_lookup in Hin as [i Hi].
      pose proof (count_id_lookup id l i it' Hi Hid). lia.
  - intros Hp. eexists. unfold updateItem. rewrite Hl. simpl.
    split; [done|]. by apply ids_update.
  - intros Hfresh. eexists. unfold addItem. rewrite Hl. simpl.
    split; [done|]. unfold ids. rewrite fmap_app. apply NoDup_app.
    split; [done|]. split; [|apply NoDup_singleton].
    intros x Hx Hx'%list_elem_of_singleton. by subst.
Qed.

Lemma crud_keeps_ids_distinct_witness :
  (∃ l', removeItem "exhibitors" "ex-2" sampleData
           = Some (<["exhibitors" := l']> sampleData) ∧
         NoDup (ids l') ∧
         ((∃ it', it' ∈ [ex_1; ex_2] ∧ has_id "ex-2" it') →
          S (length l') = length [ex_1; ex_2])) ∧
  (({[ "notes" := "moved" ]} : item) !! "id" = None
   ∨ ({[ "notes" := "moved" ]} : item) !! "id" = Some "ex-2" →
   ∃ l', updateItem "exhibitors" "ex-2" {[ "notes" := "moved" ]} sampleData
           = Some (<["exhibitors" := l']> sampleData) ∧
         ids l' = ids [ex_1; ex_2]) ∧
  (b_A1 !! "id" ∉ ids [ex_1; ex_2] →
   ∃ l', addItem "exhibitors" b_A1 sampleData
           = Some (<["exhibitors" := l']> sampleData) ∧
         NoDup (ids l')).
Proof.
  apply (crud_keeps_ids_distinct "exhibitors" "ex-2" b_A1 {[ "notes" := "moved" ]}
           sampleData [ex_1; ex_2]).
  - reflexivity.
  - vm_compute. repeat constructor; rewrite ?elem_of_cons, ?elem_of_nil; intuition congruence.
Defined.

(** X4. Adding a record whose id no record of the collection carries and
    then removing that id gives back the aggregate. *)
Theorem addItem_removeItem (collection id : string) (it : item)
    (d : aggregate) (l : list item) :
  d !! collection = Some l → has_id id it →
  (∀ it', it' ∈ l → ¬ has_id id it') →
  addItem collection it d ≫= removeItem collection id = Some d.
Proof.
  intros Hl Hid Hfresh. rewrite (addItem_insert _ _ _ l) by done. simpl.
  unfold removeItem. rewrite lookup_insert_eq. simpl.
  rewrite filter_app, filter_absent by done.
  rewrite filter_cons, decide_False by (by intros []).
  rewrite filter_nil, app_nil_r, insert_insert_eq. by rewrite insert_id.
Qed.

Lemma addItem_removeItem_witness :
  addItem "events" b_A1 sampleData ≫= removeItem "events" "b-A1" = Some sampleData.
Proof.
  apply (addItem_removeItem "events" "b-A1" b_A1 sampleData [ev_1]).
  - reflexivity.
  - reflexivity.
  - intros it' Hin. apply list_elem_of_singleton in Hin as ->.
    unfold has_id. vm_compute. congruence.
Defined.

Lemma spread_spread (it p1 p2 : item) :
  spread (spread it p1) p2 = spread it (p2 ∪ p1).
Proof. unfold spread. by rewrite (assoc_L (∪)). Qed.

(** X5. Running [removeItem] or [updateItem] a second time with the same
    arguments changes nothing more. *)
Theorem removeItem_updateItem_idempotent (collection id : string) (patch : item)
    (d d' : aggregate) :
  (removeItem collection id d = Some d' → removeItem collection id d' = Some d') ∧
  (updateItem collection id patch d = Some d' →
   updateItem collection id patch d' = Some d').
Proof.
  split.
  - unfold removeItem. destruct (d !! collection) as [l|] eqn:Hl; [|done].
    simpl. intros [= <-]. rewrite lookup_insert_eq. simpl.
    rewrite insert_insert_eq. do 2 f_equal.
    apply filter_absent. intros it Hin. by apply list_elem_of_filter in Hin as [? _].
  - unfold updateItem. destruct (d !! collection) as [l|] eqn:Hl; [|done].
    simpl. intros [= <-]. rewrite lookup_insert_eq. simpl.
    rewrite insert_insert_eq. do 2 f_equal.
    rewrite <-list_fmap_compose. apply list_fmap_ext. intros i it _. simpl.
    destruct (decide (has_id id it)) as [Hid|Hid].
    + case_decide; [|done]. rewrite spread_spread.
      unfold spread. by rewrite (idemp_L (∪)).
    + by rewrite decide_False.
Qed.

(** X6. Two updates of the same id in a row are one update with the
    later patch laid over the earlier one, when the earlier patch has no
    id field or repeats the id. *)
Theorem updateItem_updateItem (collection id : string) (p1 p2 : item)
    (d : aggregate) :
  p1 !! "id" = None ∨ p1 !! "id" = Some id →
  updateItem collection id p1 d ≫= updateItem collection id p2
  = updateItem collection id (p2 ∪ p1) d.
Proof.
  intros Hp. unfold updateItem.
  destruct (d !! collection) as [l|] eqn:Hl; [|done]. simpl.
  rewrite lookup_insert_eq. simpl. rewrite insert_insert_eq. do 2 f_equal.
  rewrite <-list_fmap_compose. apply list_fmap_ext. intros i it _. simpl.
  destruct (decide (has_id id it)) as [Hid|Hid].
  - rewrite decide_True; [apply spread_spread|].
    unfold has_id. destruct Hp as [Hp|Hp].
    + by rewrite spread_lookup_other.
    + by apply spread_lookup_patch.
  - by rewrite decide_False.
Qed.

Lemma updateItem_updateItem_witness :
  updateItem "booths" "b-A1" {[ "size" := "4x4" ]} sampleData
    ≫= updateItem "booths" "b-A1" {[ "notes" := "Moved" ]}
  = updateItem "booths" "b-A1" ({[ "notes" := "Moved" ]} ∪ {[ "size" := "4x4" ]})
      sampleData.
Proof.
  apply (updateItem_updateItem "booths" "b-A1"). left. reflexivity.
Defined.

(** * The edit modal *)

Lemma typeInto_keeps (k value : string) (form form' : item) :
  typeInto k value form = Some form' →
  form' !! "id" = form !! "id" ∧ dom form' = dom form.
Proof.
  unfold typeInto, editableKeys. case_decide as Hk; [|done]. intros [= <-].
  apply elem_of_difference in Hk as [Hdom Hid]. split.
  - apply lookup_insert_ne. set_solver.
  - apply dom_insert_lookup_L. by apply elem_of_dom.
Qed.

Lemma typeAll_keeps (edits : list (string * string)) (form form' : item) :
  typeAll edits form = Some form' →
  form' !! "id" = form !! "id" ∧ dom form' = dom form.
Proof.
  revert form. induction edits as [|[k value] edits IH]; intros form H; simpl in H.
  - by simplify_eq.
  - destruct (typeInto k value form) as [form1|] eqn:E; [|done]. simpl in H.
    apply typeInto_keeps in E as [E1 E2]. apply IH in H as [H1 H2].
    split; congruence.
Qed.

Lemma spread_covering (it form : item) : dom it ⊆ dom form → spread it form = form.
Proof.
  intros Hsub. unfold spread. apply map_eq. intros k.
  destruct (form !! k) as [v|] eqn:E.
  - by apply lookup_union_Some_l.
  - rewrite lookup_union_r by done. apply not_elem_of_dom.
    intros Hk. apply Hsub in Hk. by apply not_elem_of_dom in E.
Qed.

(** X7. Whatever is typed into the inputs of the edit modal, the form
    keeps the id and the keys of the record it was opened on; saving it
    writes the form in place of that record and changes no id of the
    collection. *)
Theorem modal_save (collection id : string) (it form : item)
    (edits : list (string * string)) (d : aggregate) (l : list item) :
  d !! collection = Some l → has_id id it → typeAll edits it = Some form →
  has_id id form ∧ dom form = dom it ∧
  ∃ l', updateItem collection id form d = Some (<[collection := l']> d) ∧
        ids l' = ids l ∧
        ∀ i, l !! i = Some it → l' !! i = Some form.
Proof.
  intros Hl Hid [Hfid Hdom]%typeAll_keeps.
  assert (has_id id form) as Hform by (unfold has_id in *; congruence).
  split; [done|]. split; [done|].
  eexists. unfold updateItem. rewrite Hl. simpl. split; [done|]. split.
  - apply ids_update. by right.
  - intros i Hi. rewrite list_lookup_fmap, Hi. simpl.
    rewrite decide_True by done. f_equal. apply spread_covering. by rewrite Hdom.
Qed.

Lemma modal_save_witness :
  has_id "b-A1" (<["size" := "4x4"]> b_A1) ∧
  dom (<["size" := "4x4"]> b_A1 : item) = dom b_A1 ∧
  ∃ l', updateItem "booths" "b-A1" (<["size" := "4x4"]> b_A1) sampleData
          = Some (<["booths" := l']> sampleData) ∧
        ids l' = ids [b_A1; b_B2] ∧
        ∀ i, [b_A1; b_B2] !! i = Some b_A1 → l' !! i = Some (<["size" := "4x4"]> b_A1).
Proof.
  apply (modal_save "booths" "b-A1" b_A1 (<["size" := "4x4"]> b_A1)
           [("size", "4x4")] sampleData [b_A1; b_B2]); reflexivity.
Defined.

(** * The dashboard *)

(** X8. The latest registrations are the last five attendees (all of
    them when there are fewer), the most recent first. *)
Theorem latestRegistrations_spec (data : aggregate) (l : list item) :
  data !! "attendees" = Some l →
  ∃ r, latestRegistrations data = Some r ∧
       length r = length l `min` 5 ∧
       ∀ i, i < length r → r !! i = l !! (length l - 1 - i).
Proof.
  intros Hl. eexists. unfold latestRegistrations. rewrite Hl. simpl.
  split; [done|]. split.
  - rewrite length_reverse, length_drop. lia.
  - intros i. rewrite length_reverse, length_drop. intros Hi.
    rewrite reverse_lookup by (rewrite length_drop; lia).
    rewrite lookup_drop, length_drop. f_equal. lia.
Qed.

Lemma latestRegistrations_spec_witness :
  ∃ r, latestRegistrations sampleData = Some r ∧
       length r = length [at_1] `min` 5 ∧
       ∀ i, i < length r → r !! i = [at_1] !! (length [at_1] - 1 - i).
Proof. apply (latestRegistrations_spec sampleData [at_1]). reflexivity. Defined.

(** X9. After a registration the new attendee heads the latest
    registrations, followed by the four most recent earlier ones. *)
Theorem submitAttendee_latest (rnd : string) (form : item) (data : aggregate)
    (l : list item) :
  data !! "attendees" = Some l →
  submitAttendee rnd form data ≫= latestRegistrations
  = Some (newItem "at" rnd form :: reverse (drop (length l - 4) l)).
Proof.
  intros Hl. unfold submitAttendee. rewrite (addItem_insert _ _ _ l) by done.
  simpl. unfold latestRegistrations. rewrite lookup_insert_eq. simpl.
  replace (length (l ++ [newItem "at" rnd form]) - 5) with (length l - 4)
    by (rewrite length_app; simpl; lia).
  by rewrite drop_app_le, reverse_snoc by lia.
Qed.

Lemma submitAttendee_latest_witness :
  submitAttendee "0.4fzyo82mvyr" {[ "name" := "Jane Doe" ]} sampleData
    ≫= latestRegistrations
  = Some (newItem "at" "0.4fzyo82mvyr" {[ "name" := "Jane Doe" ]}
          :: reverse (drop (length [at_1] - 4) [at_1])).
Proof.
  apply (submitAttendee_latest "0.4fzyo82mvyr" {[ "name" := "Jane Doe" ]}
           sampleData [at_1]).
  reflexivity.
Defined.

(** * More on the filtered views *)

Lemma toLowerCase_app (a b : string) :
  toLowerCase (a +:+ b) = toLowerCase a +:+ toLowerCase b.
Proof.
  induction a as [|c a IH]; [done|].
  rewrite string_app_cons. simpl. by rewrite IH.
Qed.

Lemma substring_of_trans (a b c : string) :
  substring_of a b → substring_of b c → substring_of a c.
Proof.
  intros (p1 & q1 & ->) (p2 & q2 & ->). exists (p2 +:+ p1), (q1 +:+ q2).
  by rewrite !string_app_assoc.
Qed.

Lemma substring_of_lower (a b : string) :
  substring_of a b → substring_of (toLowerCase a) (toLowerCase b).
Proof.
  intros (p & q & ->). exists (toLowerCase p), (toLowerCase q).
  by rewrite !toLowerCase_app.
Qed.

Lemma substring_of_join (sep x : string) (l : list string) :
  x ∈ l → substring_of x (join sep l).
Proof.
  induction l as [|y l IH]; [by intros ?%elem_of_nil|].
  intros [->|Hin]%elem_of_cons.
  - destruct l as [|z l].
    + exists EmptyString, EmptyString. by rewrite string_app_nil_l, string_app_nil_r.
    + exists EmptyString, (sep +:+ join sep (z :: l)). by rewrite string_app_nil_l.
  - destruct l as [|z l]; [by apply elem_of_nil in Hin|].
    destruct (IH Hin) as (p & q & Hj).
    exists (y +:+ sep +:+ p), q. change (join sep (y :: z :: l))
      with (y +:+ sep +:+ join sep (z :: l)).
    by rewrite Hj, !string_app_assoc.
Qed.

Lemma matches_spec (fields : list string) (q : string) (it : item) :
  matches fields q it = true ↔
  substring_of (toLowerCase q) (toLowerCase (spaced_concatenation fields it)).
Proof. unfold matches, spaced_concatenation. apply includes_spec. Qed.

(** X10. A query whose lower-cased text contains the lower-cased text of
    another finds no record the other misses: its view is the view of the
    other, filtered again. Nothing is asked of the lower-casing of the
    queries but this containment. *)
Theorem filtered_refine (collection q q' : string) (data : aggregate)
    (l : list item) :
  collection ∈ collections → data !! collection = Some l →
  substring_of (toLowerCase q) (toLowerCase q') →
  ∃ l1 l2, filtered collection q data = Some l1 ∧
           filtered collection q' data = Some l2 ∧
           l2 = filter (λ it, matches (documented_fields collection) q' it) l1 ∧
           l2 `sublist_of` l1.
Proof.
  intros Hc Hl Hq. rewrite !filtered_unfold by done. rewrite Hl. simpl.
  eexists _, _. split; [done|]. split; [done|].
  assert (filter (λ it, matches (documented_fields collection) q' it) l
          = filter (λ it, matches (documented_fields collection) q' it)
              (filter (λ it, matches (documented_fields collection) q it) l)) as Heq.
  { rewrite list_filter_filter. apply list_filter_iff. intros it. split; [|tauto].
    intros Hm. split; [done|]. apply Is_true_true, matches_spec.
    apply Is_true_true, matches_spec in Hm.
    by eapply substring_of_trans. }
  split; [done|]. rewrite Heq. apply sublist_filter.
Qed.

Lemma filtered_refine_witness :
  ∃ l1 l2, filtered "exhibitors" "nano" sampleData = Some l1 ∧
           filtered "exhibitors" "NanoTech Lab" sampleData = Some l2 ∧
           l2 = filter (λ it, matches (documented_fields "exhibitors")
                                "NanoTech Lab" it) l1 ∧
           l2 `sublist_of` l1.
Proof.
  apply (filtered_refine "exhibitors" "nano" "NanoTech Lab" sampleData [ex_1; ex_2]).
  - left.
  - reflexivity.
  - exists EmptyString, "tech lab". reflexivity.
Defined.

(** X11. A record is found by the text of any of its searched fields,
    typed in any case. *)
Theorem filtered_finds_field (collection f q : string) (it : item)
    (data : aggregate) (l : list item) :
  collection ∈ collections → data !! collection = Some l →
  it ∈ l → f ∈ documented_fields collection →
  toLowerCase q = toLowerCase (text_of (it !! f)) →
  ∃ l', filtered collection q data = Some l' ∧ it ∈ l'.
Proof.
  intros Hc Hl Hin Hf Hq. rewrite filtered_unfold by done. rewrite Hl. simpl.
  eexists. split; [done|]. apply list_elem_of_filter. split; [|done].
  apply Is_true_true, matches_spec. rewrite Hq.
  apply substring_of_lower. unfold spaced_concatenation.
  apply substring_of_join. by apply (list_elem_of_fmap_2 (λ f, text_of (it !! f))).
Qed.

Lemma filtered_finds_field_witness :
  ∃ l', filtered "events" "MAIN HALL" sampleData = Some l' ∧ ev_1 ∈ l'.
Proof.
  apply (filtered_finds_field "events" "location" "MAIN HALL" ev_1 sampleData [ev_1]).
  - right; right; left.
  - reflexivity.
  - left.
  - right; left.
  - reflexivity.
Defined.

(** X12. The view after [addItem] is the view before it, followed by the
    new record when the query matches it. *)
Theorem filtered_addItem (collection q : string) (it : item) (data : aggregate)
    (l : list item) :
  collection ∈ collections → data !! collection = Some l →
  addItem collection it data ≫= filtered collection q
  = r ← filtered collection q data;
    Some (r ++ if matches (documented_fields collection) q it then [it] else []).
Proof.
  intros Hc Hl. rewrite (addItem_insert _ _ _ l) by done. simpl.
  rewrite !filtered_unfold by done. rewrite lookup_insert_eq, Hl. simpl.
  rewrite filter_app, filter_cons, filter_nil. f_equal. f_equal.
  by destruct (matches (documented_fields collection) q it).
Qed.

Lemma filtered_addItem_witness :
  addItem "booths" b_A1 sampleData ≫= filtered "booths" "entrance"
  = r ← filtered "booths" "entrance" sampleData;
    Some (r ++ if matches (documented_fields "booths") "entrance" b_A1
               then [b_A1] else []).
Proof.
  apply (filtered_addItem "booths" "entrance" b_A1 sampleData [b_A1; b_B2]).
  - right; left.
  - reflexivity.
Defined.

(** * More on identifiers and file names *)

Lemma string_length_app (a b : string) :
  String.length (a +:+ b) = String.length a + String.length b.
Proof.
  induction a as [|c a IH]; [done|].
  rewrite string_app_cons. simpl. by rewrite IH.
Qed.




Lemma string_app_inj_len (a b x y : string) :
  String.length a = String.length b → a +:+ x = b +:+ y → a = b.
Proof.
  revert b. induction a as [|c a IH]; intros [|c' b] Hlen; simpl in Hlen;
    try done.
  rewrite !string_app_cons. intros [= -> H]. f_equal. apply IH; [lia|done].
Qed.

Lemma string_app_inj_r (a b s : string) : a +:+ s = b +:+ s → a = b.
Proof.
  intros H. apply (string_app_inj_len a b s s); [|done].
  apply (f_equal String.length) in H. rewrite !string_length_app in H. lia.
Qed.

(** X14. Two exports get the same file name exactly when they happen in
    the same millisecond. *)
Theorem exportCSV_file_name (native native' : string → string) (now now' : N)
    (array array' : list item) (columns columns' : list column) :
  file_name (exportCSV native now array columns)
  = file_name (exportCSV native' now' array' columns')
  ↔ now = now'.
Proof.
  simpl. split; [|by intros ->]. intros H.
  apply (inj (String.app "export_")) in H.
  apply string_app_inj_r in H. by apply (inj pretty) in H.
Qed.

(** * Reading the exported CSV back *)

Lemma read_cell_body (v s acc : string) (cells : list string)
    (rows : list (list string)) :
  read_csv_go (double_quotes v +:+ s) InCell acc cells rows
  = read_csv_go s InCell (acc +:+ v) cells rows.
Proof.
  revert acc. induction v as [|c v IH]; intros acc.
  - by rewrite string_app_nil_l, string_app_nil_r.
  - cbn [double_quotes]. destruct (decide (c = dquote)) as [->|Hc].
    + rewrite !string_app_cons. cbn [read_csv_go].
      rewrite !decide_True by done. rewrite IH.
      by rewrite string_app_assoc.
    + rewrite string_app_cons. cbn [read_csv_go].
      rewrite decide_False by done. rewrite IH.
      by rewrite string_app_assoc.
Qed.

Lemma read_cell (v s : string) (cells : list string) (rows : list (list string)) :
  read_csv_go (quoted (double_quotes v) +:+ s) CellStart EmptyString cells rows
  = read_csv_go s QuoteSeen v cells rows.
Proof.
  unfold quoted. rewrite string_app_cons. cbn [read_csv_go].
  rewrite decide_True by done.
  rewrite string_app_assoc, read_cell_body, string_app_cons. cbn [read_csv_go].
  by rewrite decide_True.
Qed.

Lemma read_row (l : list string) (x : string) (cells : list string)
    (rows : list (list string)) :
  (∀ s, read_csv_go (join "," ((λ v, quoted (double_quotes v)) <$> x :: l)
                       +:+ String (ascii_of_nat 10) s)
          CellStart EmptyString cells rows
        = read_csv_go s CellStart EmptyString [] (rows ++ [cells ++ x :: l])) ∧
  read_csv_go (join "," ((λ v, quoted (double_quotes v)) <$> x :: l))
    CellStart EmptyString cells rows
  = Some (rows ++ [cells ++ x :: l]).
Proof.
  revert x cells. induction l as [|y l IH]; intros x cells.
  - rewrite fmap_cons, fmap_nil. change (join "," [?a]) with a. split.
    + intros s. rewrite read_cell. cbn [read_csv_go].
      rewrite decide_False by done. rewrite decide_False by done.
      by rewrite decide_True.
    + rewrite <-(string_app_nil_r (quoted _)), read_cell. done.
  - rewrite fmap_cons.
    change (join "," (?a :: ?b)) with (a +:+ "," +:+ join "," b).
    destruct (IH y (cells ++ [x])) as [IH1 IH2].
    rewrite <-(assoc_L (++)) in IH1, IH2. simpl in IH1, IH2. split.
    + intros s. rewrite !string_app_assoc, read_cell, string_app_cons.
      cbn [read_csv_go]. rewrite decide_False by done.
      rewrite decide_True by done. rewrite string_app_nil_l. apply IH1.
    + rewrite read_cell, string_app_cons. cbn [read_csv_go].
      rewrite decide_False by done. rewrite decide_True by done.
      rewrite string_app_nil_l. apply IH2.
Qed.

Lemma read_rows (R : list (list string)) (rows : list (list string)) :
  Forall (λ r, r ≠ []) R →
  read_csv_go
    (join (String (ascii_of_nat 10) EmptyString)
       ((λ r, join "," ((λ v, quoted (double_quotes v)) <$> r)) <$> R))
    CellStart EmptyString [] rows
  = Some (rows ++ R).
Proof.
  revert rows. induction R as [|r R IH]; intros rows HR.
  - by rewrite app_nil_r.
  - apply Forall_cons in HR as [Hr HR]. destruct r as [|x l]; [done|].
    destruct (read_row l x [] rows) as [H1 H2]. simpl in H1, H2.
    destruct R as [|r' R].
    + rewrite fmap_cons, fmap_nil. change (join ?sep [?a]) with a. apply H2.
    + rewrite fmap_cons.
      change (join ?sep (?a :: ?b)) with (a +:+ sep +:+ join sep b).
      rewrite string_app_cons, string_app_nil_l, H1, IH by done.
      by rewrite <-(assoc_L (++)).
Qed.

Lemma double_quotes_quote_free (s : string) :
  quote_free s = true → double_quotes s = s.
Proof.
  induction s as [|c s IH]; [done|]. simpl. case_decide; [done|].
  intros Hfree. by rewrite IH.
Qed.

(** X15. With at least one column and no quote character in a label, the
    text of [exportCSV] reads back, by the reader [read_csv], as the row of
    labels followed by one row per record with the text of each column as
    [exportCSV] reads it: the value of the field, the text of the
    inherited value for a missing field under an inherited name, the empty
    string for any other missing field. Commas, line breaks and quote
    characters inside the values do no harm. *)
Theorem exportCSV_read_back (native : string → string) (now : N) (array : list item)
    (columns : list column) :
  columns ≠ [] →
  Forall (λ c, quote_free (label c) = true) columns →
  read_csv (body (exportCSV native now array columns))
  = Some ((label <$> columns)
          :: ((λ row, (λ c, ToString native
                              (default (VString EmptyString) (get row (key c))))
                        <$> columns) <$> array)).
Proof.
  intros Hne Hfree. simpl. unfold csv_text, read_csv.
  assert (csv_header columns
          = join "," ((λ v, quoted (double_quotes v)) <$> (label <$> columns))) as ->.
  { unfold csv_header. f_equal. rewrite <-list_fmap_compose.
    apply Forall_fmap_ext_1. eapply Forall_impl; [exact Hfree|].
    intros c Hc. simpl. by rewrite double_quotes_quote_free. }
  assert (csv_row native columns <$> array
          = (λ r, join "," ((λ v, quoted (double_quotes v)) <$> r))
              <$> ((λ row, (λ c, ToString native
                                   (default (VString EmptyString) (get row (key c))))
                             <$> columns) <$> array)) as ->.
  { rewrite <-list_fmap_compose. apply list_fmap_ext. intros i row _. simpl.
    unfold csv_row. f_equal. by rewrite <-list_fmap_compose. }
  destruct columns as [|c0 cs]; [done|]. rewrite fmap_cons.
  destruct (read_row (label <$> cs) (label c0) [] []) as [H1 _].
  change (String (ascii_of_nat 10) EmptyString +:+ ?x)
    with (String (ascii_of_nat 10) x).
  rewrite H1. apply read_rows.
  apply Forall_fmap, Forall_forall. intros row _. done.
Qed.

Lemma exportCSV_read_back_witness :
  read_csv (body (exportCSV (λ k, "function " +:+ k +:+ "() { [native code] }") 0
                    [ex_1; ex_2] (Column "toString" "Text" :: exhibitor_columns)))
  = Some (["Text"; "Name"; "Contact"; "Booth"; "Notes"]
          :: [ ["function toString() { [native code] }"; "NanoTech Lab";
                "info@nanotech.example"; "A1"; "Graphene demos"];
               ["function toString() { [native code] }"; "Micro Instruments";
                "sales@micro.example"; "B2"; "AFM & SEM"] ]).
Proof.
  apply (exportCSV_read_back (λ k, "function " +:+ k +:+ "() { [native code] }") 0
           [ex_1; ex_2] (Column "toString" "Text" :: exhibitor_columns)).
  - done.
  - repeat constructor.
Defined.

(** The two conditions are needed: a quote character in a label is not
    doubled, and without columns every record is an empty line. *)
Example exportCSV_unescaped_label (native : string → string) :
  read_csv (body (exportCSV native 0 [] [Column "size" (String "3" (String dquote "x"))]))
  = None.
Proof. vm_compute. reflexivity. Qed.

Example exportCSV_no_columns (native : string → string) :
  body (exportCSV native 0 [ex_1; ex_2] []) = newline +:+ newline ∧
  read_csv (body (exportCSV native 0 [ex_1; ex_2] [])) = Some [[EmptyString]; [EmptyString]].
Proof. split; vm_compute; reflexivity. Qed.

(** The reader takes bare cells and the line break of RFC 4180 as well. *)
Example read_csv_crlf :
  read_csv ("Name,Booth" +:+ String (ascii_of_nat 13) newline +:+
            quoted "Lab, Nano" +:+ ",A1" +:+ String (ascii_of_nat 13) newline)
  = Some [["Name"; "Booth"]; ["Lab, Nano"; "A1"]].
Proof. vm_compute. reflexivity. Qed.

(** * Clipboard and backup texts *)

Section json_texts.
Import JSON.

Local Arguments parse_atom : simpl never.
Local Arguments parse_chars : simpl never.
Local Arguments skip_ws : simpl never.

Lemma blank_nil : blank EmptyString.
Proof. by intros x. Qed.

Lemma blank_app (a b : string) : blank a → blank b → blank (a +:+ b).
Proof. intros Ha Hb x. by rewrite string_app_assoc, Ha, Hb. Qed.

Lemma blank_gap : blank "  ".
Proof. by intros x. Qed.

Lemma blank_newline : blank newline.
Proof. by intros x. Qed.

Lemma parse_value_blank (w s : string) (n : nat) :
  blank w → parse_value n (w +:+ s) = parse_value n s.
Proof. intros Hw. destruct n; [done|]. by rewrite !parse_value_S, Hw. Qed.

Lemma parse_elements_blank (w s : string) (n : nat) :
  blank w → parse_elements n (w +:+ s) = parse_elements n s.
Proof.
  intros Hw. destruct n; [done|]. by rewrite !parse_elements_S, parse_value_blank.
Qed.

Lemma parse_members_blank (w s : string) (n : nat) :
  blank w → parse_members n (w +:+ s) = parse_members n s.
Proof. intros Hw. destruct n; [done|]. by rewrite !parse_members_S, Hw. Qed.

Lemma roundtrips_gap_str (s : string) : roundtrips_gap (JStr s).
Proof.
  destruct (roundtrips_str s) as [Hh Hp]. split.
  - intros indent. exact Hh.
  - intros indent n rest _. apply Hp.
Qed.

Lemma parse_elements_gap (l : list json) (n : nat) (inner outer rest : string) :
  l ≠ [] → Forall roundtrips_gap l → blank inner → blank outer →
  parse_elements n
    (join ("," +:+ newline +:+ inner) (stringify_gap "  " inner <$> l)
     +:+ newline +:+ outer +:+ "]" +:+ rest) ≠ NoFuel →
  parse_elements n
    (join ("," +:+ newline +:+ inner) (stringify_gap "  " inner <$> l)
     +:+ newline +:+ outer +:+ "]" +:+ rest) = Ret (l, rest).
Proof.
  intros Hne Hall Hin Hout. revert n Hne Hall.
  induction l as [|v l IH]; intros n Hne Hall; [done|].
  apply Forall_cons in Hall as [Hv Hl]. destruct n as [|n]; [done|].
  rewrite parse_elements_S. destruct l as [|w l].
  - rewrite fmap_cons, fmap_nil, join_one. intros Hf.
    rewrite (rtg_parse _ Hv) in Hf |- * by (done || by apply bind_fuel in Hf).
    rewrite bind_Ret_l.
    rewrite <-string_app_assoc, (blank_app _ _ blank_newline Hout).
    reflexivity.
  - rewrite !fmap_cons, join_more, <-fmap_cons, !string_app_assoc. intros Hf.
    rewrite (rtg_parse _ Hv) in Hf |- * by (done || by apply bind_fuel in Hf).
    rewrite bind_Ret_l in Hf |- *.
    rewrite string_app_cons, string_app_nil_l, skip_ws_head in Hf |- * by done.
    change ("," =? ",")%char with true in Hf |- *. cbv iota in Hf |- *.
    rewrite <-string_app_assoc,
      (parse_elements_blank _ _ _ (blank_app _ _ blank_newline Hin)) in Hf |- *.
    rewrite IH; [done|done|done|]. by apply bind_fuel in Hf.
Qed.

Lemma stringify_gap_arr (indent : string) (v : json) (l : list json) (rest : string) :
  stringify_gap "  " indent (JArr (v :: l)) +:+ rest =
  String "[" ((newline +:+ indent +:+ "  ") +:+
    join ("," +:+ newline +:+ indent +:+ "  ")
         (stringify_gap "  " (indent +:+ "  ") <$> v :: l)
    +:+ newline +:+ indent +:+ "]" +:+ rest).
Proof.
  cbn [stringify_gap]. rewrite fmap_cons. cbv iota.
  rewrite decide_False by done.
  rewrite string_app_cons, string_app_nil_l, string_app_cons.
  by rewrite !string_app_assoc.
Qed.

Lemma join_head (sep x : string) (l : list string) (tail : string) (c : ascii)
    (s0 : string) :
  x = String c s0 → ∃ t, join sep (x :: l) +:+ tail = String c t.
Proof.
  intros ->. destruct l.
  - rewrite join_one, string_app_cons. eauto.
  - rewrite join_more, string_app_assoc, string_app_cons. eauto.
Qed.

Lemma roundtrips_gap_arr (l : list json) :
  Forall roundtrips_gap l → roundtrips_gap (JArr l).
Proof.
  intros Hall. split.
  - intros indent. destruct l as [|v l]; [by exists "["%char, "]"|].
    pose proof (stringify_gap_arr indent v l EmptyString) as H.
    rewrite string_app_nil_r in H. rewrite H. by eexists _, _.
  - intros indent [|n] rest Hblank Hf; [done|]. revert Hf.
    destruct l as [|v l]; [reflexivity|].
    rewrite parse_value_S, stringify_gap_arr, skip_ws_head by done.
    change ("[" =? "{")%char with false. change ("[" =? "[")%char with true.
    cbv iota.
    assert (blank (newline +:+ indent +:+ "  ")) as Hin.
    { apply blank_app; [apply blank_newline|].
      apply blank_app; [done|apply blank_gap]. }
    rewrite Hin.
    destruct (rtg_head _ (Forall_inv Hall) (indent +:+ "  "))
      as (c & s0 & Hc & Hws & Hb).
    rewrite fmap_cons.
    edestruct (join_head ("," +:+ newline +:+ indent +:+ "  ")) as [t Ht];
      [exact Hc|].
    rewrite Ht, skip_ws_head, Hb, <-Ht, <-fmap_cons by done. intros Hf.
    assert (blank (indent +:+ "  ")) as Hin'
      by (apply blank_app; [done|apply blank_gap]).
    rewrite (parse_elements_gap (v :: l) n (indent +:+ "  ") indent rest) in Hf |- *;
      [done|done|done|done|done|by apply bind_fuel in Hf
      |done|done|done|done|by apply bind_fuel in Hf].
Qed.

Lemma member_text_gap_app (indent k : string) (v : json) (tail : string) :
  member_text_gap indent (k, v) +:+ tail =
  String dquote (quote_units k +:+ String dquote
    (String ":" (" " +:+ stringify_gap "  " indent v +:+ tail))).
Proof.
  unfold member_text_gap, QuoteJSONString. simpl.
  by rewrite !string_app_cons, !string_app_assoc.
Qed.

Lemma blank_space : blank " ".
Proof. by intros x. Qed.

Lemma parse_members_gap (kvs : list (string * json)) (n : nat)
    (inner outer rest : string) :
  kvs ≠ [] → Forall (λ kv, roundtrips_gap kv.2) kvs → blank inner → blank outer →
  parse_members n
    (join ("," +:+ newline +:+ inner) (member_text_gap inner <$> kvs)
     +:+ newline +:+ outer +:+ "}" +:+ rest) ≠ NoFuel →
  parse_members n
    (join ("," +:+ newline +:+ inner) (member_text_gap inner <$> kvs)
     +:+ newline +:+ outer +:+ "}" +:+ rest) = Ret (kvs, rest).
Proof.
  intros Hne Hall Hin Hout. revert n Hne Hall.
  induction kvs as [|[k v] kvs IH]; intros n Hne Hall; [done|].
  apply Forall_cons in Hall as [Hv Hl]. simpl in Hv.
  destruct n as [|n]; [done|].
  rewrite parse_members_S. destruct kvs as [|kv kvs].
  - rewrite fmap_cons, fmap_nil, join_one, member_text_gap_app.
    rewrite skip_ws_head by done.
    change (dquote =? dquote)%char with true. cbv iota.
    rewrite quote_units_parse, bind_Ret_l, skip_ws_head by done.
    change (":" =? ":")%char with true. cbv iota.
    rewrite (parse_value_blank _ _ _ blank_space). intros Hf.
    rewrite (rtg_parse _ Hv) in Hf |- * by (done || by apply bind_fuel in Hf).
    rewrite bind_Ret_l.
    rewrite <-string_app_assoc, (blank_app _ _ blank_newline Hout).
    reflexivity.
  - rewrite !fmap_cons, join_more, <-fmap_cons, string_app_assoc,
      member_text_gap_app.
    rewrite skip_ws_head by done.
    change (dquote =? dquote)%char with true. cbv iota.
    rewrite quote_units_parse, bind_Ret_l, skip_ws_head by done.
    change (":" =? ":")%char with true. cbv iota.
    rewrite (parse_value_blank _ _ _ blank_space), !string_app_assoc. intros Hf.
    rewrite (rtg_parse _ Hv) in Hf |- * by (done || by apply bind_fuel in Hf).
    rewrite bind_Ret_l in Hf |- *.
    rewrite string_app_cons, string_app_nil_l, skip_ws_head in Hf |- * by done.
    change ("," =? ",")%char with true in Hf |- *. cbv iota in Hf |- *.
    rewrite <-string_app_assoc,
      (parse_members_blank _ _ _ (blank_app _ _ blank_newline Hin)) in Hf |- *.
    rewrite IH; [done|done|done|]. by apply bind_fuel in Hf.
Qed.

Lemma stringify_gap_obj_members (indent : string) (m : gmap string json) :
  map_fold (λ k v partial,
              (QuoteJSONString k +:+ ":" +:+
               (if decide ("  " = EmptyString) then EmptyString else " ")
               +:+ stringify_gap "  " indent v) :: partial) [] m
  = member_text_gap indent <$> map_to_list m.
Proof.
  rewrite map_fold_foldr.
  induction (map_to_list m) as [|[k v] l IH]; [done|].
  rewrite fmap_cons. cbn [foldr]. by rewrite IH.
Qed.

Lemma stringify_gap_obj (indent : string) (m : gmap string json) (rest : string) :
  map_to_list m ≠ [] →
  stringify_gap "  " indent (JObj m) +:+ rest =
  String "{" ((newline +:+ indent +:+ "  ") +:+
    join ("," +:+ newline +:+ indent +:+ "  ")
         (member_text_gap (indent +:+ "  ") <$> map_to_list m)
    +:+ newline +:+ indent +:+ "}" +:+ rest).
Proof.
  intros Hne. cbn [stringify_gap]. rewrite stringify_gap_obj_members.
  destruct (map_to_list m) as [|kv kvs]; [done|]. rewrite fmap_cons. cbv iota.
  rewrite decide_False by done.
  rewrite string_app_cons, string_app_nil_l, string_app_cons.
  by rewrite !string_app_assoc.
Qed.

Lemma roundtrips_gap_obj (m : gmap string json) :
  map_Forall (λ _ v, roundtrips_gap v) m → roundtrips_gap (JObj m).
Proof.
  intros Hall.
  assert (map_to_list m = [] → ∀ indent, stringify_gap "  " indent (JObj m) = "{}")
    as Hempty.
  { intros E indent. cbn [stringify_gap]. by rewrite stringify_gap_obj_members, E. }
  split.
  - intros indent. destruct (map_to_list m) as [|kv kvs] eqn:E.
    + rewrite Hempty by done. by exists "{"%char, "}".
    + pose proof (stringify_gap_obj indent m EmptyString) as H.
      rewrite string_app_nil_r in H. rewrite H by (by rewrite E). by eexists _, _.
  - intros indent [|n] rest Hblank Hf; [done|]. revert Hf.
    destruct (map_to_list m) as [|[k v] kvs] eqn:E.
    { rewrite Hempty by done. apply map_to_list_empty_iff in E as ->. reflexivity. }
    rewrite parse_value_S, stringify_gap_obj, skip_ws_head by (done || by rewrite E).
    change ("{" =? "{")%char with true. cbv iota.
    assert (blank (indent +:+ "  ")) as Hin'
      by (apply blank_app; [done|apply blank_gap]).
    assert (blank (newline +:+ indent +:+ "  ")) as Hin
      by (apply blank_app; [apply blank_newline|done]).
    rewrite Hin.
    assert (Forall (λ kv, roundtrips_gap kv.2) (map_to_list m)) as Hl.
    { apply Forall_forall. intros [k' v'] Hin2%elem_of_map_to_list. by eapply Hall. }
    pose proof (list_to_map_rev_to_list m) as Hm.
    rewrite E in Hl, Hm |- *. rewrite fmap_cons.
    edestruct (join_head ("," +:+ newline +:+ indent +:+ "  ")
                 (member_text_gap (indent +:+ "  ") (k, v))) as [t Ht].
    { pose proof (member_text_gap_app (indent +:+ "  ") k v EmptyString) as Hk.
      rewrite string_app_nil_r in Hk. exact Hk. }
    rewrite Ht, skip_ws_head by done.
    change (dquote =? "}")%char with false. cbv iota.
    rewrite <-Ht, <-fmap_cons. intros Hf.
    rewrite (parse_members_gap ((k, v) :: kvs) n (indent +:+ "  ") indent rest)
      in Hf |- *;
      [|done|done|done|done|by apply bind_fuel in Hf
       |done|done|done|done|by apply bind_fuel in Hf].
    rewrite bind_Ret_l. by rewrite Hm.
Qed.

Lemma parse_stringify_gap (v : json) :
  roundtrips_gap v → parse (stringify_gap "  " EmptyString v) = Ret v.
Proof.
  intros Hv. unfold parse.
  assert (parse_value (2 * String.length (stringify_gap "  " EmptyString v) + 1)
            (stringify_gap "  " EmptyString v) = Ret (v, EmptyString)) as ->;
    [|reflexivity].
  pose proof (parse_value_total (stringify_gap "  " EmptyString v)) as Hf.
  pose proof (rtg_parse _ Hv EmptyString
                (2 * String.length (stringify_gap "  " EmptyString v) + 1)
                EmptyString blank_nil) as Hp.
  rewrite string_app_nil_r in Hp. by apply Hp.
Qed.
End json_texts.

Lemma roundtrips_gap_item (it : item) : roundtrips_gap (item_json it).
Proof.
  apply roundtrips_gap_obj. intros k v Hv. rewrite lookup_fmap in Hv.
  destruct (it !! k); simplify_eq/=. apply roundtrips_gap_str.
Qed.

Lemma roundtrips_gap_aggregate (d : aggregate) : roundtrips_gap (aggregate_json d).
Proof.
  apply roundtrips_gap_obj. intros k v Hv. rewrite lookup_fmap in Hv.
  destruct (d !! k) as [l|]; simplify_eq/=.
  apply roundtrips_gap_arr, Forall_fmap, Forall_forall.
  intros it _. apply roundtrips_gap_item.
Qed.

(** X16. The JSON backup, indented by two spaces, is a text that
    [JSON.parse] reads back as the aggregate it was made from. *)
Theorem downloadBackup_parses (data : aggregate) :
  JSON.parse (body (downloadBackup data)) = Ret (aggregate_json data) ∧
  ∀ data', JSON.parse (body (downloadBackup data)) = Ret (aggregate_json data') →
           data' = data.
Proof.
  assert (JSON.parse (body (downloadBackup data)) = Ret (aggregate_json data)) as H.
  { unfold downloadBackup, body. apply parse_stringify_gap, roundtrips_gap_aggregate. }
  split; [done|]. intros data' H'. rewrite H in H'.
  assert (aggregate_json data' = aggregate_json data) as Heq by congruence.
  by apply (inj aggregate_json) in Heq.
Qed.

(** X17. The texts the two copy buttons hand to the clipboard are read
    back by [JSON.parse] as the filtered exhibitors and as the whole
    aggregate. *)
Theorem clipboard_parses (q : string) (data : aggregate) (l : list item) :
  data !! "exhibitors" = Some l →
  (∃ text shown, copyFilteredJSON q data = Some text ∧
                 filteredExhibitors q data = Some shown ∧
                 JSON.parse text = Ret (JArr (item_json <$> shown))) ∧
  JSON.parse (copyFullJSON data) = Ret (aggregate_json data).
Proof.
  intros Hl. split.
  - unfold copyFilteredJSON, filteredExhibitors. rewrite Hl. simpl.
    eexists _, _. split; [done|]. split; [done|].
    apply (parse_stringify (JArr _)), roundtrips_arr, Forall_fmap, Forall_forall.
    intros it _. apply roundtrips_item.
  - apply parse_stringify, roundtrips_aggregate.
Qed.

Lemma clipboard_parses_witness :
  (∃ text shown, copyFilteredJSON "nano" sampleData = Some text ∧
                 filteredExhibitors "nano" sampleData = Some shown ∧
                 JSON.parse text = Ret (JArr (item_json <$> shown))) ∧
  JSON.parse (copyFullJSON sampleData) = Ret (aggregate_json sampleData).
Proof. apply (clipboard_parses "nano" sampleData [ex_1; ex_2]). reflexivity. Defined.

(** * The running application *)

Lemma load_save (d : aggregate) (st : gmap string string) :
  loadFromStorage (saveToStorage (aggregate_json d) st) = Ret (aggregate_json d).
Proof.
  rewrite loadFromStorage_cases. unfold saveToStorage.
  rewrite lookup_insert_eq, parse_stringify; [done|apply roundtrips_aggregate].
Qed.

Lemma persist_persisted (a : app) : persisted (persist a).
Proof. unfold persisted, persist. simpl. apply load_save. Qed.

Lemma setData_persisted (updater : aggregate → option aggregate) (a a' : app) :
  setData updater a = Some a' → persisted a'.
Proof.
  unfold setData. destruct (updater (app_data a)); [|done].
  intros [= <-]. apply persist_persisted.
Qed.

Lemma resetToSample_persisted (a : app) : persisted (resetToSample a).
Proof.
  unfold resetToSample. destruct (app_pristine a); [|apply persist_persisted].
  unfold persisted. simpl. rewrite loadFromStorage_cases.
  by rewrite lookup_delete_eq.
Qed.

Lemma handle_persisted (act : action) (a a' : app) :
  persisted a → handle act a = Some a' → persisted a'.
Proof.
  intros Ha. destruct act as [| | | | |c id [|]|[|]]; simpl;
    try (by apply setData_persisted); try (by intros [= <-]).
  intros [= <-]. apply resetToSample_persisted.
Qed.

Lemma run_keeps_persisted (acts : list action) (a a' : app) :
  persisted a → run acts a = Some a' → persisted a'.
Proof.
  revert a. induction acts as [|act acts IH]; intros a Ha; simpl.
  - by intros [= <-].
  - destruct (handle act a) as [a1|] eqn:E; [|done]. simpl.
    apply IH. by eapply handle_persisted.
Qed.

(** X18. The storage follows the data: when a reload would return the
    current data, it still does after any sequence of submits, saves,
    deletes and resets that throws nothing; and a reload returns the
    data once the effect has run, as it does after the first render. *)
Theorem run_persisted (acts : list action) (a a' : app) :
  persisted a → run acts a = Some a' →
  persisted a' ∧ ∀ a0, persisted (persist a0).
Proof.
  intros Ha Hrun. split; [by eapply run_keeps_persisted|].
  apply persist_persisted.
Qed.

Lemma setData_well_formed (collection : string)
    (updater : aggregate → option aggregate) (a : app) :
  crud collection updater → collection ∈ collections → well_formed (app_data a) →
  ∃ a', setData updater a = Some a' ∧ well_formed (app_data a').
Proof.
  intros Hg Hc Hwf.
  destruct (crud_well_formed _ _ _ Hg Hc Hwf) as (d' & Hd' & Hwf' & _).
  unfold setData. rewrite Hd'. simpl. by eexists.
Qed.

Lemma handle_well_formed (act : action) (a : app) :
  on_collections act → well_formed (app_data a) →
  ∃ a', handle act a = Some a' ∧ well_formed (app_data a').
Proof.
  intros Hact Hwf. destruct act as [| | | | |c id [|]|[|]]; simpl in *.
  - apply (setData_well_formed "exhibitors"); [apply crud_add|left|done].
  - apply (setData_well_formed "booths"); [apply crud_add|right; left|done].
  - apply (setData_well_formed "events"); [apply crud_add|right; right; left|done].
  - apply (setData_well_formed "attendees");
      [apply crud_add|right; right; right; left|done].
  - apply (setData_well_formed collection); [apply crud_update|done|done].
  - apply (setData_well_formed c); [apply crud_remove|done|done].
  - by eexists.
  - eexists. split; [done|]. unfold resetToSample.
    destruct (app_pristine a); apply well_formed_sampleData.
  - by eexists.
Qed.

(** X19. From a state that holds the four collections, no sequence of
    submits, saves, deletes and resets on the four collections throws,
    and the state it leads to holds the four collections. *)
Theorem run_never_throws (acts : list action) (a : app) :
  well_formed (app_data a) → Forall on_collections acts →
  ∃ a', run acts a = Some a' ∧ well_formed (app_data a').
Proof.
  revert a. induction acts as [|act acts IH]; intros a Hwf Hacts; simpl.
  - by eexists.
  - apply Forall_cons in Hacts as [Hact Hacts].
    destruct (handle_well_formed act a Hact Hwf) as (a1 & -> & Hwf1). simpl.
    by apply IH.
Qed.

Lemma run_persisted_witness :
  persisted (default first_render (run session first_render)) ∧
  ∀ a0, persisted (persist a0).
Proof.
  apply (run_persisted session first_render).
  - vm_compute. reflexivity.
  - vm_compute. reflexivity.
Defined.

Lemma run_never_throws_witness :
  ∃ a', run session first_render = Some a' ∧ well_formed (app_data a').
Proof.
  apply (run_never_throws session first_render).
  - apply well_formed_sampleData.
  - unfold session. repeat constructor.
Defined.

Example reset_twice_clears_storage :
  (app_storage <$> run [Reset true; Reset true] first_render) = Some ∅.
Proof. vm_compute. reflexivity. Qed.
